(** * LP-based inverse reinforcement learning: a shallow embedding

    The Python program recovers reward weights ("alpha") over a family of
    Gaussian basis functions on the state interval [-1, 1].  This file
    embeds its functions in Rocq and proves the properties of its
    specification about them.

    Conventions of the embedding.
    - Python floats are idealised as the real numbers of the Standard
      Library ([R]); rounding, infinities and NaN are outside the model.
    - A numpy 1-D array and a Python list of floats are both [list R].
    - Python exceptions are values of [exn]; a function that can raise
      returns a [result].
    - The process-wide random generator is threaded explicitly: a function
      that draws from it takes the generator state and returns the new one.
    - numpy, scipy.stats.norm and scipy.optimize.linprog are libraries the
      program calls.  The first two are modelled by their documented
      meaning; the random generator and the LP backend are parameters of
      the development, with their contracts stated as hypotheses exactly
      where a proof needs them. *)

From Stdlib Require Import String.
From Stdlib Require Import Reals Lra Lia List Bool Arith PeanoNat Permutation.
From Stdlib Require Import ClassicalEpsilon.
Import ListNotations.

Open Scope R_scope.

(** ** Exceptions and fallible computations *)

Inductive exn : Type :=
| IndexError (msg : string)
| ValueError (msg : string).

Inductive result (A : Type) : Type :=
| Ok (a : A)
| Raise (e : exn).

Arguments Ok {A} a.
Arguments Raise {A} e.

Definition bind {A B : Type} (r : result A) (k : A -> result B) : result B :=
  match r with
  | Ok a => k a
  | Raise e => Raise e
  end.

Notation "x <- r ;; k" := (bind r (fun x => k))
  (at level 61, r at next level, right associativity).
Notation "' p <- r ;; k" := (bind r (fun v => let p := v in k))
  (at level 61, p pattern, r at next level, right associativity).

(** [mapM f l] runs [f] on the elements of [l] from left to right and stops
    at the first exception, as a Python loop that fills a list does. *)
Fixpoint mapM {A B : Type} (f : A -> result B) (l : list A) : result (list B) :=
  match l with
  | [] => Ok []
  | a :: l' => b <- f a ;; bs <- mapM f l' ;; Ok (b :: bs)
  end.

(** ** Python lists *)

(** [l[-1]] *)
Fixpoint item_last {A : Type} (l : list A) : result A :=
  match l with
  | [] => Raise (IndexError "list index out of range")
  | [a] => Ok a
  | _ :: l' => item_last l'
  end.

(** [l[j]] for a non-negative index [j] *)
Definition item {A : Type} (l : list A) (j : nat) : result A :=
  match nth_error l j with
  | Some a => Ok a
  | None => Raise (IndexError "list index out of range")
  end.

(** ** numpy on 1-D arrays *)

Definition ndarray : Type := list R.

Module np.

Definition zeros (n : nat) : ndarray := repeat 0 n.
Definition ones (n : nat) : ndarray := repeat 1 n.
Definition zeros_like (a : ndarray) : ndarray := zeros (length a).

(** [np.eye(n)], as the list of its rows. *)
Definition eye (n : nat) : list ndarray :=
  map (fun i => map (fun j => if Nat.eqb i j then 1 else 0) (seq 0 n))
      (seq 0 n).

(** [np.linspace(start, stop, num)] with the default [endpoint=True]:
    [arange(num) * step + start] with [step = (stop - start) / (num - 1)],
    and the last entry overwritten by [stop] when [num > 1]. *)
Definition linspace (start stop : R) (num : nat) : ndarray :=
  match num with
  | O => []
  | S O => [start]
  | S div =>
      let step := (stop - start) / INR div in
      map (fun k => INR k * step + start) (seq 0 div) ++ [stop]
  end.

Definition sum (a : ndarray) : R := fold_right Rplus 0 a.

(** [np.mean] of a non-empty sequence. *)
Definition mean (a : ndarray) : R := sum a / INR (length a).

Definition abs (a : ndarray) : ndarray := map Rabs a.

Definition negative (a : ndarray) : ndarray := map Ropp a.

(** [np.max]: the reduction has no identity, an empty array raises. *)
Definition max (a : ndarray) : result R :=
  match a with
  | [] => Raise (ValueError "zero-size array to reduction operation maximum which has no identity")
  | x :: a' => Ok (fold_left Rmax a' x)
  end.

Fixpoint zip_with (f : R -> R -> R) (a b : ndarray) : ndarray :=
  match a, b with
  | x :: a', y :: b' => f x y :: zip_with f a' b'
  | _, _ => []
  end.

(** A binary operator on two 1-D arrays, with numpy's broadcasting:
    equal lengths combine elementwise, an array of length one is
    stretched, any other pair of shapes raises. *)
Definition binop (f : R -> R -> R) (a b : ndarray) : result ndarray :=
  if Nat.eqb (length a) (length b) then Ok (zip_with f a b)
  else match a, b with
       | _, [y] => Ok (map (fun x => f x y) a)
       | [x], _ => Ok (map (fun y => f x y) b)
       | _, _ => Raise (ValueError "operands could not be broadcast together")
       end.

Definition subtract : ndarray -> ndarray -> result ndarray := binop Rminus.
Definition multiply : ndarray -> ndarray -> result ndarray := binop Rmult.

(** [a += b]: the result keeps the shape of [a], so only [b] may be
    stretched. *)
Definition iadd (a b : ndarray) : result ndarray :=
  if Nat.eqb (length a) (length b) then Ok (zip_with Rplus a b)
  else match b with
       | [y] => Ok (map (fun x => x + y) a)
       | _ => Raise (ValueError "non-broadcastable output operand")
       end.

End np.

(** ** scipy.stats.norm *)

Module norm.

(** [norm.pdf(x, loc, scale)]: the density of the normal distribution
    with mean [loc] and standard deviation [scale], that is the standard
    density [exp(-y^2/2) / sqrt(2 pi)] at [y = (x - loc) / scale],
    divided by [scale]. *)
Definition pdf (x loc scale : R) : R :=
  let y := (x - loc) / scale in
  exp (- (y * y) / 2) / sqrt (2 * PI) / scale.

End norm.

(** ** scipy.optimize.linprog: the interface *)

(** The fields of [OptimizeResult] the program reads. *)
Record OptimizeResult : Type := mkOptimizeResult {
  success : bool;
  x : ndarray
}.

(** A policy maps a state to an action.  The reward-greedy policy built by
    the driver calls [reward_function], which can raise, so a policy is a
    fallible function. *)
Definition policy : Type := R -> result R.

(** What the driver prints when [print_progress] is set. *)
Inductive output : Type :=
| PrintConverged (iteration : nat)
| PrintIteration (iteration : nat)
| PrintAlpha (alpha : ndarray).

(** ** The linear programs posed to the backend *)

Module LP.

Definition dot (a b : ndarray) : R := np.sum (np.zip_with Rmult a b).

(** [y] satisfies [A_ub y <= b_ub] and [lo <= y_i <= hi], and has one
    entry per cost coefficient. *)
Definition feasible (c : ndarray) (A_ub : list ndarray) (b_ub : ndarray)
           (bounds : R * R) (y : ndarray) : Prop :=
  length y = length c /\
  Forall2 (fun row b => dot row y <= b) A_ub b_ub /\
  Forall (fun yi => fst bounds <= yi <= snd bounds) y.

(** [y] is feasible and minimises [c . y] over the feasible set. *)
Definition optimal (c : ndarray) (A_ub : list ndarray) (b_ub : ndarray)
           (bounds : R * R) (y : ndarray) : Prop :=
  feasible c A_ub b_ub bounds y /\
  forall z, feasible c A_ub b_ub bounds z -> dot c y <= dot c z.

End LP.

(** ** Reference instances of the two parameters

    The development is parametric in the random generator and in the LP
    backend.  The instances below show that its assumptions can be met:
    they are used only to run the theorems on concrete inputs. *)

(** An exact backend: it reports success exactly when the program has an
    optimal point, and then returns one. *)
Definition ideal_linprog (c : ndarray) (A_ub : list ndarray) (b_ub : ndarray)
           (bounds : R * R) : OptimizeResult :=
  match excluded_middle_informative
          (exists y, LP.optimal c A_ub b_ub bounds y) with
  | left H =>
      {| success := true;
         x := proj1_sig (constructive_indefinite_description _ H) |}
  | right _ => {| success := false; x := [] |}
  end.

(** A backend that always reports failure. *)
Definition failing_linprog (c : ndarray) (A_ub : list ndarray) (b_ub : ndarray)
           (bounds : R * R) : OptimizeResult :=
  {| success := false; x := [] |}.

(** A backend that always reports success with the all-zero vector. *)
Definition zero_linprog (c : ndarray) (A_ub : list ndarray) (b_ub : ndarray)
           (bounds : R * R) : OptimizeResult :=
  {| success := true; x := np.zeros (length c) |}.

(** A generator whose state counts the draws made, every unit draw being
    one half and every choice the head of the list. *)
Definition counting_sample (g : nat) : R * nat := (1 / 2, S g).
Definition counting_choice (l : list R) (g : nat) : R * nat := (hd 0 l, S g).

(** ** The program *)

Section Program.

(** The state of numpy's global generator, and the two draws the program
    makes from it: [random_sample] is a draw from the unit interval,
    [choice] picks an element of a list. *)
Variable rng : Type.
Variable random_sample : rng -> R * rng.
Variable choice : list R -> rng -> R * rng.

(** The LP backend: [linprog c A_ub b_ub bounds] stands for
    [linprog(c, A_ub=A_ub, b_ub=b_ub, bounds=bounds, method='highs')].
    scipy rejects an empty cost vector with an exception of its own
    instead of returning a result, so the parameter stands for the call on
    a non-empty [c]: the contracts of an exact backend below speak of
    non-empty cost vectors only, and every theorem that asserts a result
    of the solver is about estimates of at least one component. *)
Variable linprog : ndarray -> list ndarray -> ndarray -> R * R -> OptimizeResult.

(** [numpy.random.uniform(low, high)] is [low + (high - low) * random_sample()]. *)
Definition uniform (low high : R) (g : rng) : R * rng :=
  let (u, g') := random_sample g in (low + (high - low) * u, g').

Definition pi_star : policy :=
  fun s => Ok (if Rlt_dec s 0 then 1 else -1).

Definition noise (g : rng) : R * rng := uniform (-0.5) 0.5 g.

Definition truncate_state (s : R) : R :=
  if Rgt_dec s 1 then 1
  else if Rlt_dec s (-1) then -1
  else s.

(** [policy(s)] is evaluated before the noise is drawn. *)
Definition step (s : R) (pol : policy) (g : rng) : result (R * rng) :=
  a <- pol s ;;
  let (n, g') := noise g in
  Ok (truncate_state (a * s + n), g').

(** The inner loop of [monte_carlo_sim]: [k] further states appended to
    [traj], each obtained from the current last one. *)
Fixpoint extend_trajectory (pol : policy) (k : nat) (traj : list R) (g : rng)
  : result (list R * rng) :=
  match k with
  | O => Ok (traj, g)
  | S k' =>
      cur <- item_last traj ;;
      '(s_next, g') <- step cur pol g ;;
      extend_trajectory pol k' (traj ++ [s_next]) g'
  end.

(** The outer loop of [monte_carlo_sim], with [n] trajectories still to
    generate. *)
Fixpoint simulate_trajectories (pol : policy) (trajectory_length n : nat)
         (trajectories : list (list R)) (g : rng)
  : result (list (list R) * rng) :=
  match n with
  | O => Ok (trajectories, g)
  | S n' =>
      let (s0, g0) := uniform (-1) 1 g in
      '(traj, g') <- extend_trajectory pol (trajectory_length - 1) [s0] g0 ;;
      simulate_trajectories pol trajectory_length n' (trajectories ++ [traj]) g'
  end.

(** [range(trajectory_length - 1)] is empty when [trajectory_length] is 0,
    as the truncated subtraction on [nat] makes it. *)
Definition monte_carlo_sim (pol : policy) (n_trajectories trajectory_length : nat)
           (g : rng) : result (list (list R) * rng) :=
  simulate_trajectories pol trajectory_length n_trajectories [] g.

(** The discounted return of one trajectory under the basis function of
    mean [m]: [np.sum(norm.pdf(traj, loc=m, scale=sd) * discounts)]. *)
Definition traj_return (m sd : R) (discounts : ndarray) (traj : list R)
  : result R :=
  let phi_values := map (fun s => norm.pdf s m sd) traj in
  prod <- np.multiply phi_values discounts ;;
  Ok (np.sum prod).

Definition calc_value_function_estimate (trajectories : list (list R))
           (discount : R) (n_basis : nat) : result ndarray :=
  let means := np.linspace (-1) 1 n_basis in
  let sd := 2 / 22 in
  let T := match trajectories with
           | traj0 :: _ => length traj0
           | [] => O
           end in
  let discounts := map (fun t => discount ^ t) (seq 0 T) in
  mapM (fun m =>
          traj_returns <- mapM (traj_return m sd discounts) trajectories ;;
          Ok (if Nat.ltb 0 (length traj_returns)
              then np.mean traj_returns else 0))
       means.

Definition reward_function (s : R) (alpha : ndarray) (n_basis : nat)
  : result R :=
  let means := np.linspace (-1) 1 n_basis in
  let sd := 2 / 22 in
  let phi_values := map (fun m => norm.pdf s m sd) means in
  prod <- np.multiply alpha phi_values ;;
  Ok (np.sum prod).

Definition construct_random_policy (g : rng) : policy * rng :=
  let (shape, g1) := choice [-1; 1] g in
  let (inflection, g2) := choice (np.linspace (-1) 1 21) g1 in
  (fun s => Ok (if Rlt_dec s inflection then - shape else shape), g2).

(** The loop of [solve_lp_for_alphas] that accumulates
    [V_pi_star - list_of_other_values[j]] for the indices [js]. *)
Fixpoint accumulate_diffs (V_pi_star : ndarray) (list_of_other_values : list ndarray)
         (js : list nat) (total_diff : ndarray) : result ndarray :=
  match js with
  | [] => Ok total_diff
  | j :: js' =>
      Vj <- item list_of_other_values j ;;
      d <- np.subtract V_pi_star Vj ;;
      total_diff' <- np.iadd total_diff d ;;
      accumulate_diffs V_pi_star list_of_other_values js' total_diff'
  end.

(** The objective coefficients before negation. *)
Definition total_diff_of (list_of_other_values : list ndarray) : result ndarray :=
  V_pi_star <- item_last list_of_other_values ;;
  accumulate_diffs V_pi_star list_of_other_values
                   (seq 0 (length list_of_other_values - 1))
                   (np.zeros_like V_pi_star).

(** The call the solver makes to the backend for coefficients [total_diff]. *)
Definition lp_call (total_diff : ndarray) : OptimizeResult :=
  let c := np.negative total_diff in
  let A_ub := np.eye (length c) in
  let b_ub := np.ones (length c) in
  linprog c A_ub b_ub (0, 1).

Definition solve_lp_for_alphas (value_pi_star : ndarray)
           (list_of_other_values : list ndarray) : result ndarray :=
  total_diff <- total_diff_of list_of_other_values ;;
  let res := lp_call total_diff in
  if success res then Ok (x res)
  else Raise (ValueError "LP did not find a feasible solution.").

(** The reward-greedy policy the driver derives from [alpha]
    ([pi_updated], with [alpha] bound at definition time). *)
Definition pi_updated (alpha : ndarray) (n_basis : nat) : policy :=
  fun s =>
    r <- reward_function s alpha n_basis ;;
    Ok (if Rgt_dec r 0.5 then 1 else -1).

(** The variables of the driver's loop, with the generator and the text
    printed so far. *)
Record loop_state : Type := mkLoopState {
  iter : nat;
  alpha : ndarray;
  value_functions : list ndarray;
  pi_current : policy;
  gen : rng;
  stdout : list output
}.

(** What [lp_irl_sample_trajectories] returns, [(alpha, value_functions)],
    together with the generator and the printed text it leaves behind. *)
Record outcome : Type := mkOutcome {
  ret_alpha : ndarray;
  ret_value_functions : list ndarray;
  ret_gen : rng;
  ret_stdout : list output
}.

Inductive control : Type :=
| Continue (st : loop_state)
| Return (r : outcome).

(** The first half of the loop body: simulate under the current policy,
    estimate its values, put the estimate in front of the history and
    solve for the candidate weights. *)
Definition candidate_alpha (discount : R) (n_basis : nat) (st : loop_state)
  : result (ndarray * list ndarray * rng) :=
  '(traj, g') <- monte_carlo_sim (pi_current st) 20 20 (gen st) ;;
  value_pi_current <- calc_value_function_estimate traj discount n_basis ;;
  let value_functions' := [value_pi_current] ++ value_functions st in
  expert <- item_last value_functions' ;;
  alpha_next <- solve_lp_for_alphas expert value_functions' ;;
  Ok (alpha_next, value_functions', g').

(** [i >= 4 and np.max(np.abs(alpha_next - alpha)) < 0.1]; the right
    operand is evaluated only when the left one holds. *)
Definition converged (i : nat) (alpha_next alpha : ndarray) : result bool :=
  if Nat.leb 4 i then
    d <- np.subtract alpha_next alpha ;;
    m <- np.max (np.abs d) ;;
    Ok (if Rlt_dec m 0.1 then true else false)
  else Ok false.

Definition loop_body (print_progress : bool) (discount : R) (n_basis : nat)
           (st : loop_state) : result control :=
  '(alpha_next, value_functions', g') <- candidate_alpha discount n_basis st ;;
  stop <- converged (iter st) alpha_next (alpha st) ;;
  if stop then
    Ok (Return
          {| ret_alpha := alpha_next;
             ret_value_functions := value_functions';
             ret_gen := g';
             ret_stdout :=
               stdout st ++
               (if print_progress then [PrintConverged (iter st + 1)] else []) |})
  else
    Ok (Continue
          {| iter := S (iter st);
             alpha := alpha_next;
             value_functions := value_functions';
             pi_current := pi_updated alpha_next n_basis;
             gen := g';
             stdout :=
               stdout st ++
               (if print_progress
                then [PrintIteration (iter st + 1); PrintAlpha alpha_next]
                else []) |}).

(** [for i in range(max_iter)], with [remaining] iterations left; falling
    out of the loop returns the current [alpha] and history. *)
Fixpoint for_loop (print_progress : bool) (discount : R) (n_basis : nat)
         (remaining : nat) (st : loop_state) : result outcome :=
  match remaining with
  | O =>
      Ok {| ret_alpha := alpha st;
            ret_value_functions := value_functions st;
            ret_gen := gen st;
            ret_stdout := stdout st |}
  | S remaining' =>
      c <- loop_body print_progress discount n_basis st ;;
      match c with
      | Return r => Ok r
      | Continue st' => for_loop print_progress discount n_basis remaining' st'
      end
  end.

(** The loop variables on entry to the loop. *)
Definition initial_state (value_pi_star : ndarray) (n_basis : nat) (g : rng)
  : loop_state :=
  let value_functions := [value_pi_star] in
  let alpha := np.zeros n_basis in
  let (pi_current, g') := construct_random_policy g in
  {| iter := 0;
     alpha := alpha;
     value_functions := value_functions;
     pi_current := pi_current;
     gen := g';
     stdout := [] |}.

Definition lp_irl_sample_trajectories (data : list (list R)) (max_iter : nat)
           (print_progress : bool) (discount : R) (n_basis : nat) (g : rng)
  : result outcome :=
  value_pi_star <- calc_value_function_estimate data discount n_basis ;;
  for_loop print_progress discount n_basis max_iter
           (initial_state value_pi_star n_basis g).

(** ** Specification-side definitions *)

(** The state reached after [k] iterations of the loop that all went on
    to the next one; [None] when an iteration raised or returned. *)
Fixpoint iterate (print_progress : bool) (discount : R) (n_basis : nat)
         (k : nat) (st : loop_state) : option loop_state :=
  match k with
  | O => Some st
  | S k' =>
      match loop_body print_progress discount n_basis st with
      | Ok (Continue st') => iterate print_progress discount n_basis k' st'
      | _ => None
      end
  end.

(** The two ways out of one run of the loop body. *)
Definition returned (print_progress : bool) (st : loop_state) (a : ndarray)
           (vfs : list ndarray) (g' : rng) : outcome :=
  {| ret_alpha := a;
     ret_value_functions := vfs;
     ret_gen := g';
     ret_stdout :=
       stdout st ++
       (if print_progress then [PrintConverged (iter st + 1)] else []) |}.

Definition continued (print_progress : bool) (n_basis : nat) (st : loop_state)
           (a : ndarray) (vfs : list ndarray) (g' : rng) : loop_state :=
  {| iter := S (iter st);
     alpha := a;
     value_functions := vfs;
     pi_current := pi_updated a n_basis;
     gen := g';
     stdout :=
       stdout st ++
       (if print_progress
        then [PrintIteration (iter st + 1); PrintAlpha a]
        else []) |}.

(** A loop state from which the next iteration cannot go wrong before the
    backend is called: the current policy answers on every state and the
    history is a list of vectors of [n_basis] components ending with the
    expert's. *)
Definition healthy (n_basis : nat) (st : loop_state) : Prop :=
  (forall s, exists a, pi_current st s = Ok a) /\
  exists candidates expert,
    value_functions st = candidates ++ [expert] /\
    Forall (fun V => length V = n_basis) (candidates ++ [expert]).

(** Two loop states that agree on everything but the printed text. *)
Definition same_variables (st1 st2 : loop_state) : Prop :=
  iter st1 = iter st2 /\
  alpha st1 = alpha st2 /\
  value_functions st1 = value_functions st2 /\
  pi_current st1 = pi_current st2 /\
  gen st1 = gen st2.

(** Two results of the driver that agree on everything but the printed
    text: the same weights, history and generator, or the same exception. *)
Definition same_result (r1 r2 : result outcome) : Prop :=
  match r1, r2 with
  | Ok o1, Ok o2 =>
      ret_alpha o1 = ret_alpha o2 /\
      ret_value_functions o1 = ret_value_functions o2 /\
      ret_gen o1 = ret_gen o2
  | Raise e1, Raise e2 => e1 = e2
  | _, _ => False
  end.

(** [np.max(np.abs(alpha_next - alpha))] *)
Definition max_abs_diff (alpha_next alpha : ndarray) : result R :=
  d <- np.subtract alpha_next alpha ;;
  np.max (np.abs d).

(** [states] are obtained one after the other by the simulator's step,
    starting from [s] with generator [g] and leaving generator [g']. *)
Inductive steps_from (pol : policy) : R -> rng -> list R -> rng -> Prop :=
| steps_done : forall s g, steps_from pol s g [] g
| steps_next : forall s g s' g' states g'',
    step s pol g = Ok (s', g') ->
    steps_from pol s' g' states g'' ->
    steps_from pol s g (s' :: states) g''.

(** A trajectory: a uniform draw from [-1, 1] followed by simulator steps. *)
Definition generated_trajectory (pol : policy) (g : rng) (traj : list R)
           (g' : rng) : Prop :=
  exists s0 g0 states,
    uniform (-1) 1 g = (s0, g0) /\
    traj = s0 :: states /\
    steps_from pol s0 g0 states g'.

(** A batch: trajectories generated one after the other. *)
Inductive generated_batch (pol : policy) : rng -> list (list R) -> rng -> Prop :=
| batch_done : forall g, generated_batch pol g [] g
| batch_next : forall g traj g1 trajs g2,
    generated_trajectory pol g traj g1 ->
    generated_batch pol g1 trajs g2 ->
    generated_batch pol g (traj :: trajs) g2.

(** The [i]-th of [n_basis] evenly spaced means over [-1, 1]: the first is
    -1 and consecutive ones are [2 / (n_basis - 1)] apart, which puts the
    last on 1. *)
Definition basis_mean (n_basis i : nat) : R :=
  -1 + INR i * (2 / INR (n_basis - 1)).

(** The density of the normal distribution with mean [mu] and standard
    deviation [sigma], in its textbook form. *)
Definition gaussian_density (mu sigma s : R) : R :=
  / (sigma * sqrt (2 * PI)) * exp (- ((s - mu) ^ 2) / (2 * sigma ^ 2)).

Definition phi (n_basis i : nat) (s : R) : R :=
  gaussian_density (basis_mean n_basis i) (2 / 22) s.

(** [sum_{t = 0}^{T - 1} f t] *)
Fixpoint big_sum (f : nat -> R) (T : nat) : R :=
  match T with
  | O => 0
  | S T' => big_sum f T' + f T'
  end.

(** [sum_{t = 0}^{T - 1} discount^t * phi_i(s_t)] for one trajectory. *)
Definition discounted_sum (discount : R) (n_basis i : nat) (traj : list R) : R :=
  big_sum (fun t => discount ^ t * phi n_basis i (nth t traj 0)) (length traj).

(** The average of [f] over the elements of a non-empty list. *)
Definition average {A : Type} (f : A -> R) (l : list A) : R :=
  fold_right (fun a acc => f a + acc) 0 l / INR (length l).

(** Component [i] of [sum_j (V_last - V_j)], [j] ranging over the
    candidates. *)
Definition margin (candidates : list ndarray) (expert : ndarray) (i : nat) : R :=
  fold_right (fun Vj acc => (nth i expert 0 - nth i Vj 0) + acc) 0 candidates.

(** [total_diff . alpha] for vectors of [n] components. *)
Definition objective (candidates : list ndarray) (expert : ndarray) (n : nat)
           (a : ndarray) : R :=
  big_sum (fun i => margin candidates expert i * nth i a 0) n.

(** The box [0 <= alpha_i <= 1] in dimension [n]. *)
Definition in_box (n : nat) (a : ndarray) : Prop :=
  length a = n /\ Forall (fun ai => 0 <= ai <= 1) a.

(** ** Basic facts about the library models *)

Lemma bind_ok {A B : Type} (r : result A) (k : A -> result B) (b : B) :
  bind r k = Ok b -> exists a, r = Ok a /\ k a = Ok b.
Proof.
  destruct r as [a|e]; simpl; intros H; [eauto | discriminate].
Qed.

Lemma mapM_total {A B : Type} (f : A -> result B) (h : A -> B) (l : list A) :
  (forall a, In a l -> f a = Ok (h a)) -> mapM f l = Ok (map h l).
Proof.
  induction l as [|a l IH]; intros Hf; simpl; [reflexivity|].
  rewrite (Hf a (or_introl eq_refl)); simpl.
  rewrite IH by (intros b Hb; apply Hf; right; exact Hb).
  reflexivity.
Qed.

Lemma mapM_length {A B : Type} (f : A -> result B) (l : list A) (bs : list B) :
  mapM f l = Ok bs -> length bs = length l.
Proof.
  revert bs; induction l as [|a l IH]; simpl; intros bs H.
  - inversion H; reflexivity.
  - apply bind_ok in H; destruct H as (b & _ & H).
    apply bind_ok in H; destruct H as (bs' & Hbs & H).
    inversion H; subst; simpl; f_equal; apply IH; exact Hbs.
Qed.

Lemma linspace_length (start stop : R) (num : nat) :
  length (np.linspace start stop num) = num.
Proof.
  destruct num as [|[|d]]; try reflexivity.
  unfold np.linspace.
  rewrite length_app, length_map, length_seq; simpl; lia.
Qed.

Lemma zip_with_length (f : R -> R -> R) (a b : ndarray) :
  length a = length b -> length (np.zip_with f a b) = length a.
Proof.
  revert b; induction a as [|u a IH]; intros [|v b] H; simpl in *;
    try reflexivity; try discriminate.
  f_equal; apply IH; lia.
Qed.

Lemma binop_same_length (f : R -> R -> R) (a b : ndarray) :
  length a = length b -> np.binop f a b = Ok (np.zip_with f a b).
Proof.
  intros H; unfold np.binop.
  rewrite (proj2 (Nat.eqb_eq _ _) H); reflexivity.
Qed.

Lemma iadd_same_length (a b : ndarray) :
  length a = length b -> np.iadd a b = Ok (np.zip_with Rplus a b).
Proof.
  intros H; unfold np.iadd.
  rewrite (proj2 (Nat.eqb_eq _ _) H); reflexivity.
Qed.

Lemma nth_zip_with (f : R -> R -> R) (a b : ndarray) (i : nat) :
  length a = length b -> (i < length a)%nat ->
  nth i (np.zip_with f a b) 0 = f (nth i a 0) (nth i b 0).
Proof.
  revert b i; induction a as [|u a IH]; intros [|v b] i H Hi; simpl in *;
    try lia; try discriminate.
  destruct i as [|i]; [reflexivity|].
  apply IH; lia.
Qed.

Lemma sum_map {A : Type} (h : A -> R) (l : list A) :
  np.sum (map h l) = fold_right (fun a acc => h a + acc) 0 l.
Proof.
  induction l as [|a l IH]; simpl; [reflexivity|].
  f_equal; exact IH.
Qed.

Lemma big_sum_ext (f h : nat -> R) (T : nat) :
  (forall t, (t < T)%nat -> f t = h t) -> big_sum f T = big_sum h T.
Proof.
  induction T as [|T IH]; intros E; simpl; [reflexivity|].
  rewrite IH by (intros t Ht; apply E; lia).
  rewrite (E T) by lia; reflexivity.
Qed.

Lemma big_sum_shift (f : nat -> R) (T : nat) :
  big_sum f (S T) = f O + big_sum (fun t => f (S t)) T.
Proof.
  induction T as [|T IH].
  - simpl; ring.
  - change (big_sum f (S (S T))) with (big_sum f (S T) + f (S T)).
    rewrite IH; simpl; ring.
Qed.

Lemma map_const {A : Type} (c : R) (l : list A) :
  map (fun _ => c) l = repeat c (length l).
Proof.
  induction l as [|a l IH]; simpl; [reflexivity | f_equal; exact IH].
Qed.

Lemma nth_map_lt {A B : Type} (f : A -> B) (l : list A) (i : nat) (b : B) (a : A) :
  (i < length l)%nat -> nth i (map f l) b = f (nth i l a).
Proof.
  revert i; induction l as [|u l IH]; intros [|i] Hi; simpl in *;
    try lia; [reflexivity | apply IH; lia].
Qed.

Lemma truncate_state_range (s : R) : -1 <= truncate_state s <= 1.
Proof.
  unfold truncate_state.
  destruct (Rgt_dec s 1); [lra|].
  destruct (Rlt_dec s (-1)); lra.
Qed.

(** ** The simulator's step *)

(** C6. For every state [s], every policy and every noise value, [step]
    returns a state in [-1, 1]: exactly 1 when [policy(s) * s + noise] is
    above 1, exactly -1 when it is below -1, and the value itself
    otherwise.  The generator is arbitrary, so [n] ranges over all reals. *)
Theorem step_clamps_into_interval :
  forall (s : R) (pol : policy) (a : R) (g : rng) (n : R) (g' : rng),
    pol s = Ok a ->
    noise g = (n, g') ->
    exists s',
      step s pol g = Ok (s', g') /\
      -1 <= s' <= 1 /\
      (a * s + n > 1 -> s' = 1) /\
      (a * s + n < -1 -> s' = -1) /\
      (-1 <= a * s + n <= 1 -> s' = a * s + n).
Proof.
  intros s pol a g n g' Hpol Hnoise.
  exists (truncate_state (a * s + n)).
  split.
  - unfold step; rewrite Hpol; simpl; rewrite Hnoise; reflexivity.
  - split; [apply truncate_state_range|].
    unfold truncate_state.
    destruct (Rgt_dec (a * s + n) 1) as [Hhi|Hhi];
      [|destruct (Rlt_dec (a * s + n) (-1)) as [Hlo|Hlo]];
      repeat split; intros; try reflexivity; lra.
Qed.

(** ** The value estimator on an empty batch *)

(** C9. On an empty trajectory batch the value estimator raises nothing
    and returns the all-zero vector of length [n_basis]. *)
Theorem empty_batch_value_estimate_is_zero :
  forall (discount : R) (n_basis : nat),
    calc_value_function_estimate [] discount n_basis = Ok (np.zeros n_basis).
Proof.
  intros discount n_basis.
  unfold calc_value_function_estimate.
  rewrite (mapM_total _ (fun _ => 0)) by (intros m _; reflexivity).
  rewrite map_const, linspace_length; reflexivity.
Qed.

(** ** The solver ignores its first parameter *)

(** C10. [solve_lp_for_alphas] does not depend on [value_pi_star]: with
    the same list, two calls return the same vector or raise the same
    exception. *)
Theorem solve_lp_ignores_first_parameter :
  forall (value_pi_star value_pi_star' : ndarray)
         (list_of_other_values : list ndarray),
    solve_lp_for_alphas value_pi_star list_of_other_values =
    solve_lp_for_alphas value_pi_star' list_of_other_values.
Proof.
  intros; reflexivity.
Qed.

(** ** The basis set and the value estimator *)

Lemma sqrt_2PI_neq_0 : sqrt (2 * PI) <> 0.
Proof.
  assert (H : 0 < sqrt (2 * PI)) by (apply sqrt_lt_R0; pose proof PI_RGT_0; lra).
  lra.
Qed.

(** scipy's [norm.pdf] is the textbook normal density. *)
Lemma pdf_is_gaussian_density (s mu sigma : R) :
  sigma <> 0 -> norm.pdf s mu sigma = gaussian_density mu sigma s.
Proof.
  intros Hs; unfold norm.pdf, gaussian_density.
  replace (- ((s - mu) / sigma * ((s - mu) / sigma)) / 2)
    with (- (s - mu) ^ 2 / (2 * sigma ^ 2)) by (field; exact Hs).
  pose proof sqrt_2PI_neq_0.
  field; split; assumption.
Qed.

(** The means computed by [np.linspace(-1, 1, n_basis)] are the evenly
    spaced ones. *)
Lemma nth_linspace_basis_mean (n_basis i : nat) :
  (i < n_basis)%nat ->
  nth i (np.linspace (-1) 1 n_basis) 0 = basis_mean n_basis i.
Proof.
  intros Hi; unfold basis_mean.
  destruct n_basis as [|[|d]]; [lia | |].
  - assert (i = O) by lia; subst i; simpl; ring.
  - unfold np.linspace.
    replace (S (S d) - 1)%nat with (S d) by lia.
    assert (Hd : INR (S d) <> 0) by (apply not_0_INR; lia).
    destruct (Nat.eq_dec i (S d)) as [->|Hne].
    + rewrite app_nth2 by (rewrite length_map, length_seq; lia).
      rewrite length_map, length_seq, Nat.sub_diag; simpl nth.
      field; exact Hd.
    + rewrite app_nth1 by (rewrite length_map, length_seq; lia).
      rewrite (nth_map_lt _ _ _ 0 O) by (rewrite length_seq; lia).
      rewrite seq_nth by lia; simpl plus.
      field; exact Hd.
Qed.

Lemma basis_mean_first (n_basis : nat) : basis_mean n_basis 0 = -1.
Proof. unfold basis_mean; simpl; ring. Qed.

Lemma basis_mean_last (n_basis : nat) :
  (2 <= n_basis)%nat -> basis_mean n_basis (n_basis - 1) = 1.
Proof.
  intros H; unfold basis_mean.
  assert (Hd : INR (n_basis - 1) <> 0) by (apply not_0_INR; lia).
  field; exact Hd.
Qed.

Lemma sum_zip_discounts (f : R -> R) (w : nat -> R) (traj : list R) (k : nat) :
  np.sum (np.zip_with Rmult (map f traj) (map w (seq k (length traj)))) =
  big_sum (fun t => w (k + t)%nat * f (nth t traj 0)) (length traj).
Proof.
  revert k; induction traj as [|s traj IH]; intros k; [reflexivity|].
  cbn [length seq map np.zip_with].
  rewrite big_sum_shift.
  change (np.sum (?a :: ?l)) with (a + np.sum l).
  rewrite IH, Nat.add_0_r; cbn [nth].
  rewrite (big_sum_ext (fun t => w (S k + t)%nat * f (nth t traj 0))
                       (fun t => w (k + S t)%nat * f (nth t traj 0)))
    by (intros t _; do 2 f_equal; lia).
  ring.
Qed.

Lemma traj_return_total (m sd discount : R) (traj : list R) :
  traj_return m sd (map (fun t => discount ^ t) (seq 0 (length traj))) traj =
  Ok (big_sum (fun t => discount ^ t * norm.pdf (nth t traj 0) m sd)
              (length traj)).
Proof.
  unfold traj_return, np.multiply.
  rewrite binop_same_length by (rewrite !length_map, length_seq; reflexivity).
  cbn [bind]; f_equal.
  apply (sum_zip_discounts (fun s => norm.pdf s m sd) (fun t => discount ^ t) traj 0).
Qed.

(** On a batch of trajectories of one length no product of arrays is
    ill-shaped, and the estimator returns one average per basis mean. *)
Lemma calc_value_function_estimate_total (trajectories : list (list R))
      (discount : R) (n_basis T : nat) :
  Forall (fun traj => length traj = T) trajectories ->
  calc_value_function_estimate trajectories discount n_basis =
  Ok (map (fun m =>
             if Nat.ltb 0 (length trajectories)
             then np.mean
                    (map (fun traj =>
                            big_sum (fun t => discount ^ t *
                                              norm.pdf (nth t traj 0) m (2 / 22))
                                    (length traj))
                         trajectories)
             else 0)
          (np.linspace (-1) 1 n_basis)).
Proof.
  intros Hlen.
  unfold calc_value_function_estimate.
  apply mapM_total; intros m _.
  rewrite (mapM_total _ (fun traj =>
             big_sum (fun t => discount ^ t * norm.pdf (nth t traj 0) m (2 / 22))
                     (length traj))).
  - cbn [bind]; rewrite length_map; reflexivity.
  - intros traj Hin.
    assert (HT : match trajectories with
                 | traj0 :: _ => length traj0
                 | [] => O
                 end = length traj).
    { rewrite Forall_forall in Hlen; rewrite (Hlen traj Hin).
      destruct trajectories as [|traj0 rest]; [destruct Hin|].
      apply Hlen; left; reflexivity. }
    rewrite HT; apply traj_return_total.
Qed.

Lemma calc_value_function_estimate_length (trajectories : list (list R))
      (discount : R) (n_basis : nat) (values : ndarray) :
  calc_value_function_estimate trajectories discount n_basis = Ok values ->
  length values = n_basis.
Proof.
  intros H; apply mapM_length in H.
  rewrite H; apply linspace_length.
Qed.

(** C3. On a non-empty batch of trajectories of one length [T], the value
    estimator returns a vector of [n_basis] components whose component
    [i] is the average over the trajectories of
    [sum_{t < T} discount^t * phi_i(s_t)], with [phi_i] the normal density
    of standard deviation 2/22 around the [i]-th of [n_basis] evenly
    spaced means over [-1, 1]. *)
Theorem value_estimate_is_average_discounted_sum :
  forall (trajectories : list (list R)) (discount : R) (n_basis T : nat),
    trajectories <> [] ->
    Forall (fun traj => length traj = T) trajectories ->
    exists values,
      calc_value_function_estimate trajectories discount n_basis = Ok values /\
      length values = n_basis /\
      forall i, (i < n_basis)%nat ->
        nth i values 0 =
        average (discounted_sum discount n_basis i) trajectories.
Proof.
  intros trajectories discount n_basis T Hne Hlen.
  pose proof (calc_value_function_estimate_total _ discount n_basis T Hlen) as Hcalc.
  eexists; split; [exact Hcalc|].
  split; [rewrite length_map; apply linspace_length|].
  intros i Hi.
  rewrite (nth_map_lt _ _ _ 0 0) by (rewrite linspace_length; exact Hi).
  rewrite nth_linspace_basis_mean by exact Hi.
  destruct trajectories as [|traj0 rest]; [congruence|].
  cbn [length Nat.ltb Nat.leb].
  unfold np.mean, average.
  rewrite sum_map, length_map.
  f_equal.
  generalize (traj0 :: rest) as trajs; clear.
  induction trajs as [|traj trajs IH]; [reflexivity|].
  cbn [fold_right]; rewrite IH; f_equal.
  unfold discounted_sum, phi.
  apply big_sum_ext; intros t _.
  rewrite pdf_is_gaussian_density by lra; reflexivity.
Qed.

(** ** The trajectory generator *)

Lemma item_last_snoc {A : Type} (l : list A) (a : A) :
  item_last (l ++ [a]) = Ok a.
Proof.
  induction l as [|b l IH]; [reflexivity|].
  simpl; destruct (l ++ [a]) eqn:E; [destruct l; discriminate | exact IH].
Qed.

Lemma uniform_range (low high : R) (g : rng) :
  (forall g0, 0 <= fst (random_sample g0) < 1) ->
  low <= high ->
  low <= fst (uniform low high g) <= high.
Proof.
  intros Hu Hlh; unfold uniform.
  specialize (Hu g); destruct (random_sample g) as [u g']; simpl in *.
  split; nra.
Qed.

Lemma step_total (pol : policy) (s : R) (g : rng) :
  (forall s0, exists a, pol s0 = Ok a) ->
  exists s' g', step s pol g = Ok (s', g').
Proof.
  intros Hpol; destruct (Hpol s) as [a Ha].
  unfold step; rewrite Ha; simpl.
  destruct (noise g) as [n g']; eauto.
Qed.

Lemma extend_trajectory_total (pol : policy) :
  (forall s0, exists a, pol s0 = Ok a) ->
  forall (k : nat) (front : list R) (s : R) (g : rng),
  exists states g',
    extend_trajectory pol k (front ++ [s]) g = Ok ((front ++ [s]) ++ states, g') /\
    length states = k /\
    steps_from pol s g states g'.
Proof.
  intros Hpol; induction k as [|k IH]; intros front s g.
  - exists [], g; simpl; rewrite app_nil_r; repeat split; constructor.
  - destruct (step_total pol s g Hpol) as (s' & g1 & Hstep).
    destruct (IH (front ++ [s]) s' g1) as (states & g' & Hrun & Hlen & Hsteps).
    exists (s' :: states), g'.
    cbn [extend_trajectory]; rewrite item_last_snoc; cbn [bind].
    rewrite Hstep; cbn [bind]; rewrite Hrun.
    rewrite <- app_assoc; simpl; repeat split;
      [f_equal; exact Hlen | econstructor; eassumption].
Qed.

Lemma simulate_trajectories_total (pol : policy) (trajectory_length : nat) :
  (forall s0, exists a, pol s0 = Ok a) ->
  forall (n : nat) (acc : list (list R)) (g : rng),
  exists trajs g',
    simulate_trajectories pol trajectory_length n acc g = Ok (acc ++ trajs, g') /\
    length trajs = n /\
    generated_batch pol g trajs g' /\
    Forall (fun traj => length traj = Nat.max 1 trajectory_length) trajs.
Proof.
  intros Hpol; induction n as [|n IH]; intros acc g.
  - exists [], g; simpl; rewrite app_nil_r; repeat split; constructor.
  - cbn [simulate_trajectories].
    destruct (uniform (-1) 1 g) as [s0 g0] eqn:Hu.
    destruct (extend_trajectory_total pol Hpol (trajectory_length - 1) [] s0 g0)
      as (states & g1 & Hrun & Hlen & Hsteps).
    simpl app in Hrun; rewrite Hrun; cbn [bind].
    destruct (IH (acc ++ [s0 :: states]) g1) as (trajs & g' & Hsim & Hn & Hgen & Hall).
    exists ((s0 :: states) :: trajs), g'.
    rewrite Hsim, <- app_assoc; cbn [app length]; repeat split.
    + f_equal; exact Hn.
    + econstructor; [|exact Hgen].
      exists s0, g0, states; auto.
    + constructor; [cbn [length]; rewrite Hlen; lia | exact Hall].
Qed.

Lemma generated_batch_first_states (pol : policy) :
  (forall g0, 0 <= fst (random_sample g0) < 1) ->
  forall g trajs g',
    generated_batch pol g trajs g' ->
    Forall (fun traj => -1 <= hd 0 traj <= 1) trajs.
Proof.
  intros Hu g trajs g' H; induction H as [|g traj g1 trajs g2 Htraj _ IH];
    constructor; [|exact IH].
  destruct Htraj as (s0 & g0 & states & Hdraw & -> & _); simpl.
  pose proof (uniform_range (-1) 1 g Hu ltac:(lra)) as Hr.
  rewrite Hdraw in Hr; exact Hr.
Qed.

(** C7, as amended.  For every policy that returns an action on every
    state and every choice of [n_trajectories] and [trajectory_length],
    the trajectory generator returns exactly [n_trajectories]
    trajectories, each of exactly [max 1 trajectory_length] states (that
    is [trajectory_length] states unless [trajectory_length] is 0, where
    the initial state alone is kept); every trajectory starts with a draw
    of [uniform(-1, 1)], which lies in [-1, 1], and continues with the
    simulator's step applied to the previous state. *)
Theorem monte_carlo_sim_batch :
  forall (pol : policy) (n_trajectories trajectory_length : nat) (g : rng),
    (forall s, exists a, pol s = Ok a) ->
    (forall g0, 0 <= fst (random_sample g0) < 1) ->
    exists trajectories g',
      monte_carlo_sim pol n_trajectories trajectory_length g =
        Ok (trajectories, g') /\
      length trajectories = n_trajectories /\
      Forall (fun traj => length traj = Nat.max 1 trajectory_length)
             trajectories /\
      Forall (fun traj => -1 <= hd 0 traj <= 1) trajectories /\
      generated_batch pol g trajectories g'.
Proof.
  intros pol n len g Hpol Hu.
  destruct (simulate_trajectories_total pol len Hpol n [] g)
    as (trajs & g' & Hsim & Hn & Hgen & Hall).
  exists trajs, g'; unfold monte_carlo_sim.
  repeat split; try assumption.
  eapply generated_batch_first_states; eassumption.
Qed.

(** ** The weight-recovery solver: the objective it builds *)

Lemma item_middle {A : Type} (front : list A) (a : A) (back : list A) :
  item (front ++ a :: back) (length front) = Ok a.
Proof.
  unfold item; rewrite nth_error_app2 by lia.
  rewrite Nat.sub_diag; reflexivity.
Qed.

Lemma nth_zeros (n i : nat) : nth i (np.zeros n) 0 = 0.
Proof.
  unfold np.zeros; revert i; induction n as [|n IH]; intros [|i]; simpl; auto.
Qed.

Lemma accumulate_diffs_margin (expert : ndarray) (n : nat) :
  length expert = n ->
  forall (rest front : list ndarray) (acc : ndarray),
    length acc = n ->
    Forall (fun V => length V = n) rest ->
    exists td,
      accumulate_diffs expert (front ++ rest ++ [expert])
                       (seq (length front) (length rest)) acc = Ok td /\
      length td = n /\
      forall i, (i < n)%nat -> nth i td 0 = nth i acc 0 + margin rest expert i.
Proof.
  intros He; induction rest as [|Vj rest IH]; intros front acc Hacc Hall.
  - exists acc; simpl; repeat split; [exact Hacc | intros; ring].
  - inversion Hall as [|? ? HVj Hrest]; subst.
    cbn [length seq accumulate_diffs app].
    rewrite item_middle; cbn [bind].
    unfold np.subtract; rewrite binop_same_length by congruence; cbn [bind].
    rewrite iadd_same_length
      by (rewrite zip_with_length; congruence).
    cbn [bind].
    destruct (IH (front ++ [Vj]) (np.zip_with Rplus acc (np.zip_with Rminus expert Vj)))
      as (td & Hrun & Hlen & Hnth).
    { rewrite zip_with_length; [exact Hacc|].
      rewrite zip_with_length; congruence. }
    { exact Hrest. }
    rewrite length_app, Nat.add_1_r, <- app_assoc in Hrun; simpl app in Hrun.
    exists td; repeat split; [exact Hrun | exact Hlen |].
    intros i Hi; rewrite (Hnth i Hi).
    rewrite nth_zip_with;
      [| rewrite zip_with_length; congruence | congruence].
    rewrite nth_zip_with; [| congruence | congruence].
    change (margin (Vj :: rest) expert i)
      with ((nth i expert 0 - nth i Vj 0) + margin rest expert i).
    ring.
Qed.

(** On a history of vectors of one length the objective coefficients are
    the summed margins of the expert over the candidates. *)
Lemma total_diff_of_margin (candidates : list ndarray) (expert : ndarray) (n : nat) :
  Forall (fun V => length V = n) (candidates ++ [expert]) ->
  exists td,
    total_diff_of (candidates ++ [expert]) = Ok td /\
    length td = n /\
    forall i, (i < n)%nat -> nth i td 0 = margin candidates expert i.
Proof.
  intros Hall.
  apply Forall_app in Hall; destruct Hall as [Hc He].
  inversion He as [|? ? Hexp _]; subst.
  destruct (accumulate_diffs_margin expert (length expert) eq_refl candidates []
              (np.zeros_like expert)) as (td & Hrun & Hlen & Hnth).
  { unfold np.zeros_like, np.zeros; apply repeat_length. }
  { exact Hc. }
  exists td; unfold total_diff_of.
  rewrite item_last_snoc; cbn [bind].
  rewrite length_app, Nat.add_sub; simpl app in Hrun.
  repeat split; [exact Hrun | exact Hlen |].
  intros i Hi; rewrite (Hnth i Hi); unfold np.zeros_like.
  rewrite nth_zeros; ring.
Qed.

(** ** Facts about the box-constrained program *)

Lemma dot_cons (a b : R) (u v : ndarray) :
  LP.dot (a :: u) (b :: v) = a * b + LP.dot u v.
Proof. reflexivity. Qed.

Lemma dot_big_sum (u v : ndarray) :
  length u = length v ->
  LP.dot u v = big_sum (fun i => nth i u 0 * nth i v 0) (length u).
Proof.
  revert v; induction u as [|a u IH]; intros [|b v] H; simpl in H;
    try discriminate; [reflexivity|].
  rewrite dot_cons, IH by lia.
  cbn [length]; rewrite big_sum_shift; reflexivity.
Qed.

Lemma dot_negative (u v : ndarray) :
  LP.dot (np.negative u) v = - LP.dot u v.
Proof.
  revert v; induction u as [|a u IH]; intros [|b v];
    try (unfold LP.dot; simpl; ring).
  unfold np.negative in *; cbn [map]; rewrite !dot_cons, IH; ring.
Qed.

Lemma big_sum_unit (i : nat) (y : nat -> R) (n : nat) :
  big_sum (fun j => (if Nat.eqb i j then 1 else 0) * y j) n =
  if Nat.ltb i n then y i else 0.
Proof.
  induction n as [|n IH]; [reflexivity|].
  cbn [big_sum]; rewrite IH.
  destruct (Nat.eqb_spec i n) as [->|Hne].
  - rewrite Nat.ltb_irrefl.
    rewrite (proj2 (Nat.ltb_lt n (S n))) by lia; ring.
  - destruct (Nat.ltb_spec i n); destruct (Nat.ltb_spec i (S n)); try lia; ring.
Qed.

(** Row [i] of the identity selects component [i]. *)
Lemma dot_eye_row (n i : nat) (y : ndarray) :
  length y = n -> (i < n)%nat ->
  LP.dot (map (fun j => if Nat.eqb i j then 1 else 0) (seq 0 n)) y = nth i y 0.
Proof.
  intros Hy Hi.
  rewrite dot_big_sum by (rewrite length_map, length_seq; congruence).
  rewrite length_map, length_seq.
  rewrite (big_sum_ext _ (fun j => (if Nat.eqb i j then 1 else 0) * nth j y 0)).
  - rewrite big_sum_unit, (proj2 (Nat.ltb_lt i n) Hi); reflexivity.
  - intros t Ht; f_equal.
    rewrite (nth_map_lt _ _ _ 0 O) by (rewrite length_seq; exact Ht).
    rewrite seq_nth by exact Ht; reflexivity.
Qed.

Lemma Forall2_map_repeat {A B C : Type} (P : B -> C -> Prop) (f : A -> B)
      (c : C) (l : list A) :
  (forall a, In a l -> P (f a) c) ->
  Forall2 P (map f l) (repeat c (length l)).
Proof.
  induction l as [|a l IH]; intros H; simpl; constructor;
    [apply H; left; reflexivity | apply IH; intros; apply H; right; assumption].
Qed.

(** The feasible set of the program the solver poses is the unit box. *)
Lemma box_feasible (c y : ndarray) :
  LP.feasible c (np.eye (length c)) (np.ones (length c)) (0, 1) y <->
  in_box (length c) y.
Proof.
  unfold LP.feasible, in_box; simpl fst; simpl snd; split.
  - intros (Hlen & _ & Hb); split; assumption.
  - intros (Hlen & Hb); repeat split; try assumption.
    unfold np.eye, np.ones.
    pose proof (Forall2_map_repeat (fun row b => LP.dot row y <= b)
                  (fun i => map (fun j => if Nat.eqb i j then 1 else 0)
                                (seq 0 (length c)))
                  1 (seq 0 (length c))) as HF.
    rewrite length_seq in HF; apply HF; clear HF; intros i Hi.
    apply in_seq in Hi.
    rewrite dot_eye_row by (try exact Hlen; lia).
    rewrite Forall_forall in Hb.
    destruct (Hb (nth i y 0)) as [_ Hle]; [apply nth_In; lia | exact Hle].
Qed.

(** A vertex of the box: 1 where the cost is negative, 0 elsewhere. *)
Lemma box_vertex_minimises (c z : ndarray) :
  length z = length c ->
  Forall (fun zi => 0 <= zi <= 1) z ->
  LP.dot c (map (fun ci => if Rlt_dec ci 0 then 1 else 0) c) <= LP.dot c z.
Proof.
  revert z; induction c as [|ci c IH]; intros [|zi z] Hlen Hz; simpl in Hlen;
    try discriminate; [unfold LP.dot; simpl; lra|].
  inversion Hz as [|? ? Hzi Hz']; subst.
  cbn [map]; rewrite !dot_cons.
  specialize (IH z ltac:(lia) Hz').
  destruct (Rlt_dec ci 0); nra.
Qed.

(** The program the solver poses always has an optimal point. *)
Lemma box_lp_has_optimum (c : ndarray) :
  exists y, LP.optimal c (np.eye (length c)) (np.ones (length c)) (0, 1) y.
Proof.
  exists (map (fun ci => if Rlt_dec ci 0 then 1 else 0) c); split.
  - apply box_feasible; split; [apply length_map|].
    apply Forall_forall; intros yi Hin.
    apply in_map_iff in Hin; destruct Hin as (ci & <- & _).
    destruct (Rlt_dec ci 0); lra.
  - intros z Hz; apply box_feasible in Hz; destruct Hz as [Hlen Hb].
    apply box_vertex_minimises; assumption.
Qed.

Lemma objective_dot (candidates : list ndarray) (expert td a : ndarray) (n : nat) :
  length td = n -> length a = n ->
  (forall i, (i < n)%nat -> nth i td 0 = margin candidates expert i) ->
  LP.dot td a = objective candidates expert n a.
Proof.
  intros Htd Ha Hnth.
  rewrite dot_big_sum by congruence.
  rewrite Htd; unfold objective.
  apply big_sum_ext; intros i Hi; rewrite (Hnth i Hi); reflexivity.
Qed.

(** ** The weight-recovery solver *)

Lemma solve_lp_ok_inv (value_pi_star : ndarray) (hist : list ndarray) (a : ndarray) :
  solve_lp_for_alphas value_pi_star hist = Ok a <->
  exists td,
    total_diff_of hist = Ok td /\
    success (lp_call td) = true /\
    x (lp_call td) = a.
Proof.
  unfold solve_lp_for_alphas; split.
  - intros H; apply bind_ok in H; destruct H as (td & Htd & H).
    exists td; destruct (success (lp_call td)); [|discriminate].
    inversion H; auto.
  - intros (td & Htd & Hs & Hx); rewrite Htd; cbn [bind].
    rewrite Hs, Hx; reflexivity.
Qed.

Section BackendFeasibility.

(** The backend's contract, first half: a point reported with success
    satisfies the constraints it was given. *)
Hypothesis linprog_feasible :
  forall c A_ub b_ub bounds,
    success (linprog c A_ub b_ub bounds) = true ->
    LP.feasible c A_ub b_ub bounds (x (linprog c A_ub b_ub bounds)).

(** C5. Whenever the solver returns a vector, every component of it lies
    in the closed interval [0, 1]. *)
Theorem solve_lp_alpha_in_unit_box :
  forall (value_pi_star : ndarray) (list_of_other_values : list ndarray)
         (alpha_next : ndarray),
    solve_lp_for_alphas value_pi_star list_of_other_values = Ok alpha_next ->
    Forall (fun ai => 0 <= ai <= 1) alpha_next.
Proof.
  intros v hist a H.
  apply solve_lp_ok_inv in H; destruct H as (td & _ & Hs & <-).
  unfold lp_call in *.
  apply linprog_feasible in Hs.
  apply box_feasible in Hs; destruct Hs as [_ Hb]; exact Hb.
Qed.

End BackendFeasibility.

Section BackendExact.

(** The backend's contract in full, on the programs it accepts (those
    with at least one variable): it reports success exactly on the
    programs that have an optimal point, and then returns one. *)
Hypothesis linprog_sound :
  forall c A_ub b_ub bounds,
    c <> [] ->
    success (linprog c A_ub b_ub bounds) = true ->
    LP.optimal c A_ub b_ub bounds (x (linprog c A_ub b_ub bounds)).

Hypothesis linprog_complete :
  forall c A_ub b_ub bounds,
    c <> [] ->
    (exists y, LP.optimal c A_ub b_ub bounds y) ->
    success (linprog c A_ub b_ub bounds) = true.

Lemma solve_lp_maximizes (value_pi_star : ndarray) (candidates : list ndarray)
      (expert : ndarray) (n : nat) :
  (1 <= n)%nat ->
  Forall (fun V => length V = n) (candidates ++ [expert]) ->
  exists alpha_next,
    solve_lp_for_alphas value_pi_star (candidates ++ [expert]) = Ok alpha_next /\
    in_box n alpha_next /\
    forall beta,
      in_box n beta ->
      objective candidates expert n beta <=
      objective candidates expert n alpha_next.
Proof.
  intros Hn Hall.
  destruct (total_diff_of_margin candidates expert n Hall) as (td & Htd & Hlen & Hnth).
  assert (Hneg : length (np.negative td) = n)
    by (unfold np.negative; rewrite length_map; exact Hlen).
  assert (Hc : np.negative td <> [])
    by (intros E; rewrite E in Hneg; simpl in Hneg; lia).
  assert (Hs : success (lp_call td) = true)
    by (unfold lp_call; apply linprog_complete;
        [exact Hc | apply box_lp_has_optimum]).
  exists (x (lp_call td)).
  split; [apply solve_lp_ok_inv; exists td; auto|].
  pose proof Hs as Hopt; unfold lp_call in Hopt.
  apply (linprog_sound _ _ _ _ Hc) in Hopt; fold (lp_call td) in Hopt.
  destruct Hopt as [Hfeas Hmin].
  apply box_feasible in Hfeas; rewrite Hneg in Hfeas.
  split; [exact Hfeas|].
  intros beta Hbeta.
  assert (Hb : LP.feasible (np.negative td) (np.eye (length (np.negative td)))
                 (np.ones (length (np.negative td))) (0, 1) beta)
    by (apply box_feasible; rewrite Hneg; exact Hbeta).
  apply Hmin in Hb; rewrite !dot_negative in Hb.
  rewrite <- (objective_dot candidates expert td beta n Hlen (proj1 Hbeta) Hnth).
  rewrite <- (objective_dot candidates expert td _ n Hlen (proj1 Hfeas) Hnth).
  lra.
Qed.

(** C1. With an exact backend, on every history made of at least one
    candidate estimate followed by the expert's, all of [n >= 1]
    components, the solver returns a point of the box
    [0 <= alpha_i <= 1] at which
    [total_diff . alpha] is maximal over the box, where
    [total_diff = sum_j (V_last - V_j)] over the candidates.  For the
    expert estimate [3, 2, 1] and the single candidate [1, 1, 1] the
    returned vector has [alpha_0 = 1] and [alpha_1 = 1]. *)
Theorem solve_lp_returns_box_maximizer :
  (forall (value_pi_star : ndarray) (candidates : list ndarray)
          (expert : ndarray) (n : nat),
      candidates <> [] ->
      (1 <= n)%nat ->
      Forall (fun V => length V = n) (candidates ++ [expert]) ->
      exists alpha_next,
        solve_lp_for_alphas value_pi_star (candidates ++ [expert]) =
          Ok alpha_next /\
        in_box n alpha_next /\
        forall beta,
          in_box n beta ->
          objective candidates expert n beta <=
          objective candidates expert n alpha_next) /\
  (forall value_pi_star : ndarray,
      exists alpha_next,
        solve_lp_for_alphas value_pi_star [[1; 1; 1]; [3; 2; 1]] =
          Ok alpha_next /\
        in_box 3 alpha_next /\
        nth 0 alpha_next 0 = 1 /\
        nth 1 alpha_next 0 = 1).
Proof.
  split.
  - intros v candidates expert n _ Hn Hall.
    apply solve_lp_maximizes; assumption.
  - intros v.
    destruct (solve_lp_maximizes v [[1; 1; 1]] [3; 2; 1] 3)
      as (a & Hsolve & Hbox & Hmax).
    { repeat constructor. }
    { repeat constructor. }
    exists a; split; [exact Hsolve|]; split; [exact Hbox|].
    destruct Hbox as [Hlen Hb].
    destruct a as [|a0 [|a1 [|a2 [|? ?]]]]; try discriminate.
    inversion Hb as [|? ? H0 Hb1]; subst.
    inversion Hb1 as [|? ? H1 Hb2]; subst.
    inversion Hb2 as [|? ? H2 _]; subst.
    specialize (Hmax [1; 1; a2]).
    unfold objective, margin in Hmax; cbn in Hmax.
    assert (Hin : in_box 3 [1; 1; a2])
      by (split; [reflexivity | repeat (constructor; try lra)]).
    specialize (Hmax Hin); cbn; split; lra.
Qed.

End BackendExact.

(** ** The driver's loop *)

Lemma candidate_alpha_inv (discount : R) (n_basis : nat) (st : loop_state)
      (a : ndarray) (vfs : list ndarray) (g' : rng) :
  candidate_alpha discount n_basis st = Ok (a, vfs, g') ->
  exists traj v,
    monte_carlo_sim (pi_current st) 20 20 (gen st) = Ok (traj, g') /\
    calc_value_function_estimate traj discount n_basis = Ok v /\
    vfs = v :: value_functions st /\
    solve_lp_for_alphas v vfs = Ok a.
Proof.
  unfold candidate_alpha; intros H.
  apply bind_ok in H; destruct H as ([traj g1] & Hsim & H).
  apply bind_ok in H; destruct H as (v & Hcalc & H).
  apply bind_ok in H; destruct H as (expert & _ & H).
  apply bind_ok in H; destruct H as (a' & Hsolve & H).
  inversion H; subst.
  exists traj, v; repeat split; assumption.
Qed.

Lemma item_last_cons_ok {A : Type} (a : A) (l : list A) :
  exists b, item_last (a :: l) = Ok b.
Proof.
  revert a; induction l as [|c l IH]; intros a; [exists a; reflexivity|].
  destruct (IH c) as [b Hb]; exists b; exact Hb.
Qed.

Lemma candidate_alpha_eq (discount : R) (n_basis : nat) (st : loop_state)
      (traj : list (list R)) (g' : rng) (v w : ndarray) :
  monte_carlo_sim (pi_current st) 20 20 (gen st) = Ok (traj, g') ->
  calc_value_function_estimate traj discount n_basis = Ok v ->
  candidate_alpha discount n_basis st =
  (alpha_next <- solve_lp_for_alphas w (v :: value_functions st) ;;
   Ok (alpha_next, v :: value_functions st, g')).
Proof.
  intros Hsim Hcalc; unfold candidate_alpha.
  rewrite Hsim; cbn [bind]; rewrite Hcalc; cbn [bind app].
  destruct (item_last_cons_ok v (value_functions st)) as [b Hb].
  rewrite Hb; reflexivity.
Qed.

Lemma converged_before_five (i : nat) (a al : ndarray) :
  (i < 4)%nat -> converged i a al = Ok false.
Proof.
  intros Hi; unfold converged.
  rewrite (proj2 (Nat.leb_gt 4 i) Hi); reflexivity.
Qed.

Lemma converged_from_five (i : nat) (a al : ndarray) (m : R) :
  (4 <= i)%nat ->
  max_abs_diff a al = Ok m ->
  converged i a al = Ok (if Rlt_dec m 0.1 then true else false).
Proof.
  intros Hi Hm; unfold converged.
  rewrite (proj2 (Nat.leb_le 4 i) Hi).
  unfold max_abs_diff in Hm.
  destruct (np.subtract a al) as [d|e]; [|discriminate].
  cbn [bind] in *; rewrite Hm; reflexivity.
Qed.

Lemma converged_true_inv (i : nat) (a al : ndarray) :
  converged i a al = Ok true ->
  (4 <= i)%nat /\ exists m, max_abs_diff a al = Ok m /\ m < 0.1.
Proof.
  unfold converged, max_abs_diff.
  destruct (Nat.leb_spec 4 i) as [Hi|Hi]; [|discriminate].
  intros H; split; [exact Hi|].
  destruct (np.subtract a al) as [d|e]; [|discriminate].
  cbn [bind] in *.
  destruct (np.max (np.abs d)) as [m|e]; [|discriminate].
  cbn [bind] in H; exists m; split; [reflexivity|].
  destruct (Rlt_dec m 0.1); [assumption | discriminate].
Qed.

Lemma loop_body_eq (pp : bool) (discount : R) (n_basis : nat) (st : loop_state)
      (a : ndarray) (vfs : list ndarray) (g' : rng) (stop : bool) :
  candidate_alpha discount n_basis st = Ok (a, vfs, g') ->
  converged (iter st) a (alpha st) = Ok stop ->
  loop_body pp discount n_basis st =
  Ok (if stop then Return (returned pp st a vfs g')
      else Continue (continued pp n_basis st a vfs g')).
Proof.
  intros Hc Hs; unfold loop_body.
  rewrite Hc; cbn [bind]; rewrite Hs; cbn [bind].
  destruct stop; reflexivity.
Qed.

Lemma loop_body_inv (pp : bool) (discount : R) (n_basis : nat) (st : loop_state)
      (c : control) :
  loop_body pp discount n_basis st = Ok c ->
  exists a vfs g' stop,
    candidate_alpha discount n_basis st = Ok (a, vfs, g') /\
    converged (iter st) a (alpha st) = Ok stop /\
    c = if stop then Return (returned pp st a vfs g')
        else Continue (continued pp n_basis st a vfs g').
Proof.
  intros H; pose proof H as H'.
  unfold loop_body in H.
  apply bind_ok in H; destruct H as ([[a vfs] g'] & Hc & H).
  apply bind_ok in H; destruct H as (stop & Hs & _).
  exists a, vfs, g', stop; repeat split; try assumption.
  rewrite (loop_body_eq pp _ _ _ _ _ _ _ Hc Hs) in H'.
  inversion H'; reflexivity.
Qed.

Lemma loop_body_raise (pp : bool) (discount : R) (n_basis : nat)
      (st : loop_state) (e : exn) :
  candidate_alpha discount n_basis st = Raise e ->
  loop_body pp discount n_basis st = Raise e.
Proof.
  intros H; unfold loop_body; rewrite H; reflexivity.
Qed.

Lemma iterate_snoc (pp : bool) (discount : R) (n_basis : nat) (k : nat)
      (st0 st st' : loop_state) :
  iterate pp discount n_basis k st0 = Some st ->
  loop_body pp discount n_basis st = Ok (Continue st') ->
  iterate pp discount n_basis (S k) st0 = Some st'.
Proof.
  revert st0; induction k as [|k IH]; intros st0 Hk Hb.
  - inversion Hk; subst; cbn [iterate]; rewrite Hb; reflexivity.
  - cbn [iterate] in Hk.
    change (iterate pp discount n_basis (S (S k)) st0)
      with (match loop_body pp discount n_basis st0 with
            | Ok (Continue st1) => iterate pp discount n_basis (S k) st1
            | _ => None
            end).
    destruct (loop_body pp discount n_basis st0) as [[st1|r]|e];
      try discriminate.
    apply IH; assumption.
Qed.

Lemma for_loop_iterate (pp : bool) (discount : R) (n_basis : nat) (k r : nat)
      (st0 st : loop_state) :
  iterate pp discount n_basis k st0 = Some st ->
  for_loop pp discount n_basis (k + r) st0 = for_loop pp discount n_basis r st.
Proof.
  revert st0; induction k as [|k IH]; intros st0 Hk.
  - inversion Hk; reflexivity.
  - cbn [iterate] in Hk; cbn [Nat.add for_loop].
    destruct (loop_body pp discount n_basis st0) as [[st1|res]|e];
      try discriminate.
    cbn [bind]; apply IH; exact Hk.
Qed.

(** A run of the loop that returns does so either by falling out of the
    loop after [remaining] iterations or from inside an earlier one. *)
Lemma for_loop_inv (pp : bool) (discount : R) (n_basis : nat) (remaining : nat)
      (st0 : loop_state) (res : outcome) :
  for_loop pp discount n_basis remaining st0 = Ok res ->
  exists k st,
    (k <= remaining)%nat /\
    iterate pp discount n_basis k st0 = Some st /\
    ((k = remaining /\
      res = {| ret_alpha := alpha st;
               ret_value_functions := value_functions st;
               ret_gen := gen st;
               ret_stdout := stdout st |}) \/
     ((k < remaining)%nat /\
      loop_body pp discount n_basis st = Ok (Return res))).
Proof.
  revert st0; induction remaining as [|r IH]; intros st0 H.
  - exists O, st0; cbn [for_loop] in H; inversion H.
    split; [lia|]; split; [reflexivity|]; left; split; reflexivity.
  - cbn [for_loop] in H.
    destruct (loop_body pp discount n_basis st0) as [[st1|res']|e] eqn:Hb;
      cbn [bind] in H; try discriminate.
    + destruct (IH st1 H) as (k & st & Hk & Hit & Hcase).
      exists (S k), st; split; [lia|]; split.
      * cbn [iterate]; rewrite Hb; exact Hit.
      * destruct Hcase as [[-> Hres]|[Hlt Hret]];
          [left; split; [reflexivity | exact Hres] | right; split; [lia | exact Hret]].
    + inversion H; subst.
      exists O, st0; split; [lia|]; split; [reflexivity|].
      right; split; [lia | exact Hb].
Qed.

(** What [k] iterations do to the loop variables: the counter advances by
    [k], [k] estimates are put in front of the history, and nothing
    about convergence is printed. *)
Lemma iterate_invariant (pp : bool) (discount : R) (n_basis : nat) (k : nat)
      (st0 st : loop_state) :
  iterate pp discount n_basis k st0 = Some st ->
  iter st = (iter st0 + k)%nat /\
  (exists cands,
      value_functions st = cands ++ value_functions st0 /\ length cands = k) /\
  (forall j, In (PrintConverged j) (stdout st) ->
             In (PrintConverged j) (stdout st0)).
Proof.
  revert st0; induction k as [|k IH]; intros st0 Hk.
  - inversion Hk; subst; split; [lia|]; split; [exists []; auto | auto].
  - cbn [iterate] in Hk.
    destruct (loop_body pp discount n_basis st0) as [[st1|res]|e] eqn:Hb;
      try discriminate.
    destruct (IH st1 Hk) as (Hi & (cands & Hv & Hl) & Hp).
    apply loop_body_inv in Hb.
    destruct Hb as (a & vfs & g' & stop & Hc & _ & Hst).
    destruct stop; [discriminate|]; inversion Hst; subst st1; clear Hst.
    apply candidate_alpha_inv in Hc; destruct Hc as (traj & v & _ & _ & -> & _).
    cbn in Hi, Hv, Hp.
    split; [lia|]; split.
    + exists (cands ++ [v]); rewrite <- app_assoc, length_app; simpl.
      split; [exact Hv | lia].
    + intros j Hj; specialize (Hp j Hj).
      apply in_app_or in Hp; destruct Hp as [Hp|Hp]; [exact Hp|].
      destruct pp; simpl in Hp; [|contradiction].
      destruct Hp as [Hp|[Hp|[]]]; discriminate.
Qed.

Lemma initial_state_fields (value_pi_star : ndarray) (n_basis : nat) (g : rng) :
  iter (initial_state value_pi_star n_basis g) = O /\
  alpha (initial_state value_pi_star n_basis g) = np.zeros n_basis /\
  value_functions (initial_state value_pi_star n_basis g) = [value_pi_star] /\
  stdout (initial_state value_pi_star n_basis g) = [].
Proof.
  unfold initial_state; destruct (construct_random_policy g); auto.
Qed.

Lemma driver_unfold (data : list (list R)) (max_iter : nat) (pp : bool)
      (discount : R) (n_basis : nat) (g : rng) (value_pi_star : ndarray) :
  calc_value_function_estimate data discount n_basis = Ok value_pi_star ->
  lp_irl_sample_trajectories data max_iter pp discount n_basis g =
  for_loop pp discount n_basis max_iter (initial_state value_pi_star n_basis g).
Proof.
  intros H; unfold lp_irl_sample_trajectories; rewrite H; reflexivity.
Qed.


(** C2. The driver never returns a converged result before the fifth
    iteration: in iterations 1 to 4 the loop goes on whatever the distance
    between consecutive weight vectors, and a printed convergence message
    names an iteration that is at least 5, and a return from inside the
    loop happens at an iteration that is at least 5, with the test
    satisfied.  From iteration 5 on the test
    [max |alpha_next - alpha| < 0.1] decides: at the first iteration
    where it holds the driver returns that iteration's candidate weights
    and the history accumulated so far, and while it fails the loop goes
    on. *)
Theorem driver_converges_from_fifth_iteration :
  forall (data : list (list R)) (max_iter : nat) (print_progress : bool)
         (discount : R) (n_basis : nat) (g : rng) (value_pi_star : ndarray),
    calc_value_function_estimate data discount n_basis = Ok value_pi_star ->
    let st0 := initial_state value_pi_star n_basis g in
    (forall k st alpha_next vfs g',
        (k < 4)%nat ->
        iterate print_progress discount n_basis k st0 = Some st ->
        candidate_alpha discount n_basis st = Ok (alpha_next, vfs, g') ->
        exists st',
          loop_body print_progress discount n_basis st = Ok (Continue st') /\
          iterate print_progress discount n_basis (S k) st0 = Some st' /\
          alpha st' = alpha_next) /\
    (forall k st res,
        iterate print_progress discount n_basis k st0 = Some st ->
        loop_body print_progress discount n_basis st = Ok (Return res) ->
        (5 <= k + 1)%nat /\
        exists m,
          max_abs_diff (ret_alpha res) (alpha st) = Ok m /\ m < 0.1) /\
    (forall res j,
        lp_irl_sample_trajectories data max_iter print_progress discount
                                   n_basis g = Ok res ->
        In (PrintConverged j) (ret_stdout res) ->
        (5 <= j)%nat) /\
    (forall k st alpha_next vfs g' m,
        (4 <= k < max_iter)%nat ->
        iterate print_progress discount n_basis k st0 = Some st ->
        candidate_alpha discount n_basis st = Ok (alpha_next, vfs, g') ->
        max_abs_diff alpha_next (alpha st) = Ok m ->
        m < 0.1 ->
        exists res,
          lp_irl_sample_trajectories data max_iter print_progress discount
                                     n_basis g = Ok res /\
          ret_alpha res = alpha_next /\
          ret_value_functions res = vfs /\
          length vfs = (k + 2)%nat /\
          ret_stdout res =
            stdout st ++
            (if print_progress then [PrintConverged (k + 1)] else [])) /\
    (forall k st alpha_next vfs g' m,
        (4 <= k)%nat ->
        iterate print_progress discount n_basis k st0 = Some st ->
        candidate_alpha discount n_basis st = Ok (alpha_next, vfs, g') ->
        max_abs_diff alpha_next (alpha st) = Ok m ->
        0.1 <= m ->
        exists st',
          loop_body print_progress discount n_basis st = Ok (Continue st') /\
          iterate print_progress discount n_basis (S k) st0 = Some st' /\
          alpha st' = alpha_next).
Proof.
  intros data max_iter pp discount n_basis g vstar Hstar st0.
  destruct (initial_state_fields vstar n_basis g) as (Hi0 & _ & Hv0 & Ho0).
  fold st0 in Hi0, Hv0, Ho0.
  assert (Hcount : forall k st,
             iterate pp discount n_basis k st0 = Some st -> iter st = k).
  { intros k st Hk.
    destruct (iterate_invariant _ _ _ _ _ _ Hk) as (Hi & _ & _); lia. }
  repeat split.
  - intros k st a vfs g' Hk Hit Hc.
    pose proof (loop_body_eq pp _ _ _ _ _ _ false Hc) as Hb.
    rewrite (Hcount k st Hit) in Hb.
    specialize (Hb (converged_before_five k a (alpha st) Hk)).
    eexists; split; [exact Hb|]; split; [|reflexivity].
    eapply iterate_snoc; eassumption.
  - apply loop_body_inv in H0.
    destruct H0 as (a & vfs & g' & stop & _ & Hs & Hres).
    destruct stop; [|discriminate].
    apply converged_true_inv in Hs; rewrite (Hcount k st H) in Hs.
    destruct Hs as [Hfive _]; lia.
  - apply loop_body_inv in H0.
    destruct H0 as (a & vfs & g' & stop & _ & Hs & Hres).
    destruct stop; [|discriminate].
    inversion Hres; subst res; clear Hres.
    apply converged_true_inv in Hs; destruct Hs as [_ Hm]; exact Hm.
  - intros res j Hrun Hin.
    rewrite (driver_unfold _ _ _ _ _ _ _ Hstar) in Hrun; fold st0 in Hrun.
    apply for_loop_inv in Hrun.
    destruct Hrun as (k & st & Hk & Hit & Hcase).
    destruct (iterate_invariant _ _ _ _ _ _ Hit) as (Hi & _ & Hp).
    destruct Hcase as [[_ ->]|[Hlt Hret]].
    + cbn in Hin; apply Hp in Hin; rewrite Ho0 in Hin; destruct Hin.
    + apply loop_body_inv in Hret.
      destruct Hret as (a & vfs & g' & stop & Hc & Hs & Hres).
      destruct stop; [|discriminate]; inversion Hres; subst res; clear Hres.
      apply converged_true_inv in Hs; destruct Hs as [Hfive _].
      cbn in Hin; apply in_app_or in Hin; destruct Hin as [Hin|Hin].
      * apply Hp in Hin; rewrite Ho0 in Hin; destruct Hin.
      * destruct pp; simpl in Hin; [|contradiction].
        destruct Hin as [Hin|[]]; inversion Hin; lia.
  - intros k st a vfs g' m [Hk4 Hkm] Hit Hc Hm Hlt.
    pose proof (loop_body_eq pp _ _ _ _ _ _ true Hc) as Hb.
    rewrite (Hcount k st Hit) in Hb.
    pose proof (converged_from_five k a (alpha st) m Hk4 Hm) as Hconv.
    destruct (Rlt_dec m 0.1) as [_|Hn]; [|contradiction].
    specialize (Hb Hconv).
    exists (returned pp st a vfs g').
    rewrite (driver_unfold _ _ _ _ _ _ _ Hstar); fold st0.
    replace max_iter with (k + S (max_iter - S k))%nat by lia.
    rewrite (for_loop_iterate _ _ _ _ _ _ _ Hit).
    cbn [for_loop]; rewrite Hb; cbn [bind].
    repeat split.
    + destruct (iterate_invariant _ _ _ _ _ _ Hit) as (_ & (cands & Hv & Hl) & _).
      apply candidate_alpha_inv in Hc; destruct Hc as (traj & v & _ & _ & -> & _).
      cbn [length]; rewrite Hv, length_app, Hv0, Hl; simpl; lia.
    + unfold returned; cbn; rewrite (Hcount k st Hit); reflexivity.
  - intros k st a vfs g' m Hk4 Hit Hc Hm Hge.
    pose proof (loop_body_eq pp _ _ _ _ _ _ false Hc) as Hb.
    rewrite (Hcount k st Hit) in Hb.
    pose proof (converged_from_five k a (alpha st) m Hk4 Hm) as Hconv.
    destruct (Rlt_dec m 0.1) as [Hn|_]; [lra|].
    specialize (Hb Hconv).
    eexists; split; [exact Hb|]; split; [|reflexivity].
    eapply iterate_snoc; eassumption.
Qed.

(** C8. The solver returns a vector exactly when the backend reports
    success, and the vector is the backend's; when the backend reports
    failure it raises [ValueError] and returns nothing.  An exception
    raised by the solver inside an iteration of the driver ends the run
    with that exception. *)
Theorem solve_lp_fails_when_backend_fails :
  (forall (value_pi_star : ndarray) (list_of_other_values : list ndarray)
          (alpha_next : ndarray),
      solve_lp_for_alphas value_pi_star list_of_other_values = Ok alpha_next <->
      exists total_diff,
        total_diff_of list_of_other_values = Ok total_diff /\
        success (lp_call total_diff) = true /\
        x (lp_call total_diff) = alpha_next) /\
  (forall (value_pi_star : ndarray) (list_of_other_values : list ndarray)
          (total_diff : ndarray),
      total_diff_of list_of_other_values = Ok total_diff ->
      success (lp_call total_diff) = false ->
      solve_lp_for_alphas value_pi_star list_of_other_values =
      Raise (ValueError "LP did not find a feasible solution.")) /\
  (forall (data : list (list R)) (max_iter : nat) (print_progress : bool)
          (discount : R) (n_basis : nat) (g : rng) (value_pi_star : ndarray)
          (k : nat) (st : loop_state) (traj : list (list R)) (g' : rng)
          (value_pi_current w : ndarray) (e : exn),
      calc_value_function_estimate data discount n_basis = Ok value_pi_star ->
      (k < max_iter)%nat ->
      iterate print_progress discount n_basis k
              (initial_state value_pi_star n_basis g) = Some st ->
      monte_carlo_sim (pi_current st) 20 20 (gen st) = Ok (traj, g') ->
      calc_value_function_estimate traj discount n_basis = Ok value_pi_current ->
      solve_lp_for_alphas w (value_pi_current :: value_functions st) = Raise e ->
      lp_irl_sample_trajectories data max_iter print_progress discount
                                 n_basis g = Raise e).
Proof.
  repeat split.
  - apply solve_lp_ok_inv.
  - apply solve_lp_ok_inv.
  - intros v hist td Htd Hs; unfold solve_lp_for_alphas.
    rewrite Htd; cbn [bind]; rewrite Hs; reflexivity.
  - intros data max_iter pp discount n_basis g vstar k st traj g' v w e
           Hstar Hk Hit Hsim Hcalc Hsolve.
    rewrite (driver_unfold _ _ _ _ _ _ _ Hstar).
    replace max_iter with (k + S (max_iter - S k))%nat by lia.
    rewrite (for_loop_iterate _ _ _ _ _ _ _ Hit).
    cbn [for_loop].
    rewrite (loop_body_raise pp discount n_basis st e); [reflexivity|].
    rewrite (candidate_alpha_eq _ _ _ _ _ _ w Hsim Hcalc), Hsolve; reflexivity.
Qed.

(** ** Progress of one iteration up to the call of the backend *)

Lemma random_policy_total (g : rng) (s : R) :
  exists a, fst (construct_random_policy g) s = Ok a.
Proof.
  unfold construct_random_policy.
  destruct (choice [-1; 1] g) as [shape g1].
  destruct (choice (np.linspace (-1) 1 21) g1) as [inflection g2].
  simpl; eauto.
Qed.

Lemma pi_updated_total (a : ndarray) (n_basis : nat) (s : R) :
  length a = n_basis -> exists r, pi_updated a n_basis s = Ok r.
Proof.
  intros Ha; unfold pi_updated, reward_function, np.multiply.
  rewrite binop_same_length
    by (rewrite length_map, linspace_length; exact Ha).
  cbn [bind]; eauto.
Qed.

Lemma initial_state_healthy (value_pi_star : ndarray) (n_basis : nat) (g : rng) :
  length value_pi_star = n_basis ->
  healthy n_basis (initial_state value_pi_star n_basis g).
Proof.
  intros Hlen; split.
  - intros s; destruct (random_policy_total g s) as [a Ha].
    exists a; unfold initial_state.
    destruct (construct_random_policy g); exact Ha.
  - exists [], value_pi_star; split;
      [apply initial_state_fields | repeat constructor; exact Hlen].
Qed.

Lemma candidate_prefix_total (discount : R) (n_basis : nat) (st : loop_state) :
  healthy n_basis st ->
  exists traj g' v td,
    monte_carlo_sim (pi_current st) 20 20 (gen st) = Ok (traj, g') /\
    calc_value_function_estimate traj discount n_basis = Ok v /\
    length v = n_basis /\
    total_diff_of (v :: value_functions st) = Ok td /\
    length td = n_basis.
Proof.
  intros (Hpol & cands & expert & Hv & Hall).
  destruct (simulate_trajectories_total (pi_current st) 20 Hpol 20 [] (gen st))
    as (traj & g' & Hsim & _ & _ & Hlen).
  pose proof (calc_value_function_estimate_total traj discount n_basis _ Hlen)
    as Hcalc.
  pose proof (calc_value_function_estimate_length _ _ _ _ Hcalc) as Hvlen.
  destruct (total_diff_of_margin
              (map (fun m =>
                      if Nat.ltb 0 (length traj)
                      then np.mean
                             (map (fun tr =>
                                     big_sum (fun t => discount ^ t *
                                                norm.pdf (nth t tr 0) m (2 / 22))
                                             (length tr))
                                  traj)
                      else 0)
                   (np.linspace (-1) 1 n_basis) :: cands)
              expert n_basis)
    as (td & Htd & Htdlen & _).
  { constructor; assumption. }
  eexists traj, g', _, td; rewrite Hv.
  repeat split; try eassumption.
Qed.

(** ** Further properties of the simulator *)

(** X1. [truncate_state] is a projection onto [-1, 1]: it leaves the
    states of the interval unchanged, applying it twice is applying it
    once, and it preserves the order of states. *)
Theorem truncate_state_projection :
  forall s t : R,
    truncate_state (truncate_state s) = truncate_state s /\
    (-1 <= s <= 1 -> truncate_state s = s) /\
    (s <= t -> truncate_state s <= truncate_state t).
Proof.
  intros s t; unfold truncate_state.
  repeat split; intros;
    repeat match goal with
           | |- context [Rgt_dec ?a ?b] => destruct (Rgt_dec a b)
           | |- context [Rlt_dec ?a ?b] => destruct (Rlt_dec a b)
           end; lra.
Qed.

Lemma step_ok_inv (s : R) (pol : policy) (g : rng) (s' : R) (g' : rng) :
  step s pol g = Ok (s', g') ->
  exists a,
    pol s = Ok a /\
    s' = truncate_state (a * s + fst (noise g)) /\
    g' = snd (noise g).
Proof.
  unfold step; intros H.
  apply bind_ok in H; destruct H as (a & Ha & H).
  destruct (noise g) as [n g1]; inversion H; subst.
  exists a; auto.
Qed.

Lemma extend_trajectory_inv (pol : policy) :
  forall (k : nat) (front : list R) (s : R) (g : rng) (traj : list R) (g' : rng),
    extend_trajectory pol k (front ++ [s]) g = Ok (traj, g') ->
    exists states,
      traj = (front ++ [s]) ++ states /\
      length states = k /\
      steps_from pol s g states g'.
Proof.
  induction k as [|k IH]; intros front s g traj g' H.
  - inversion H; subst; exists []; rewrite app_nil_r; repeat split; constructor.
  - cbn [extend_trajectory] in H; rewrite item_last_snoc in H; cbn [bind] in H.
    apply bind_ok in H; destruct H as ([s1 g1] & Hstep & H).
    apply IH in H; destruct H as (states & -> & Hlen & Hsteps).
    exists (s1 :: states); rewrite <- app_assoc; simpl; repeat split;
      [f_equal; exact Hlen | econstructor; eassumption].
Qed.

Lemma simulate_trajectories_inv (pol : policy) (trajectory_length : nat) :
  forall (n : nat) (acc : list (list R)) (g : rng) (res : list (list R)) (g' : rng),
    simulate_trajectories pol trajectory_length n acc g = Ok (res, g') ->
    exists trajs,
      res = acc ++ trajs /\
      length trajs = n /\
      generated_batch pol g trajs g' /\
      Forall (fun traj => length traj = Nat.max 1 trajectory_length) trajs.
Proof.
  induction n as [|n IH]; intros acc g res g' H.
  - inversion H; subst; exists []; rewrite app_nil_r; repeat split; constructor.
  - cbn [simulate_trajectories] in H.
    destruct (uniform (-1) 1 g) as [s0 g0] eqn:Hu.
    apply bind_ok in H; destruct H as ([traj g1] & Hext & H).
    apply (extend_trajectory_inv pol _ [] s0) in Hext.
    destruct Hext as (states & -> & Hlen & Hsteps).
    apply IH in H; destruct H as (trajs & -> & Hn & Hgen & Hall).
    exists ((s0 :: states) :: trajs); rewrite <- app_assoc; cbn [app length].
    repeat split.
    + f_equal; exact Hn.
    + econstructor; [|exact Hgen].
      exists s0, g0, states; auto.
    + constructor; [cbn [length]; rewrite Hlen; lia | exact Hall].
Qed.

Lemma steps_from_range (pol : policy) (s : R) (g : rng) (states : list R) (g' : rng) :
  steps_from pol s g states g' ->
  Forall (fun s' => -1 <= s' <= 1) states.
Proof.
  intros H; induction H as [|s g s' g1 states g2 Hstep _ IH]; constructor;
    [|exact IH].
  apply step_ok_inv in Hstep; destruct Hstep as (a & _ & -> & _).
  apply truncate_state_range.
Qed.

(** X2. No simulated state escapes the interval: when unit draws lie in
    [0, 1), every state of every trajectory that [monte_carlo_sim] returns
    lies in [-1, 1], whatever the policy answers. *)
Theorem monte_carlo_sim_states_in_interval :
  forall (pol : policy) (n_trajectories trajectory_length : nat) (g : rng)
         (trajectories : list (list R)) (g' : rng),
    (forall g0, 0 <= fst (random_sample g0) < 1) ->
    monte_carlo_sim pol n_trajectories trajectory_length g =
      Ok (trajectories, g') ->
    Forall (Forall (fun s => -1 <= s <= 1)) trajectories.
Proof.
  intros pol n len g trajectories g' Hu Hrun.
  apply simulate_trajectories_inv in Hrun.
  destruct Hrun as (trajs & -> & _ & Hgen & _); simpl.
  induction Hgen as [|g0 traj g1 trajs g2 Htraj _ IH]; constructor; [|exact IH].
  destruct Htraj as (s0 & g00 & states & Hdraw & -> & Hsteps).
  constructor; [|eapply steps_from_range; exact Hsteps].
  pose proof (uniform_range (-1) 1 g0 Hu ltac:(lra)) as Hr.
  rewrite Hdraw in Hr; exact Hr.
Qed.

(** X3. With [trajectory_length <= 1] the policy is never called: the
    generator returns [n_trajectories] one-state trajectories, the same
    for every policy, even one that raises on every state. *)
Theorem monte_carlo_sim_short_ignores_policy :
  forall (pol pol' : policy) (n_trajectories trajectory_length : nat) (g : rng),
    (trajectory_length <= 1)%nat ->
    monte_carlo_sim pol n_trajectories trajectory_length g =
    monte_carlo_sim pol' n_trajectories trajectory_length g /\
    exists trajectories g',
      monte_carlo_sim pol n_trajectories trajectory_length g =
        Ok (trajectories, g') /\
      length trajectories = n_trajectories /\
      Forall (fun traj => length traj = 1%nat) trajectories.
Proof.
  intros pol pol' n len g Hlen; unfold monte_carlo_sim.
  assert (Hk : (len - 1 = 0)%nat) by lia.
  assert (Hgen : forall p acc g0,
             exists trajs g',
               simulate_trajectories p len n acc g0 = Ok (acc ++ trajs, g') /\
               length trajs = n /\
               Forall (fun traj => length traj = 1%nat) trajs /\
               forall p', simulate_trajectories p' len n acc g0 =
                          Ok (acc ++ trajs, g')).
  { intros p; induction n as [|n IH]; intros acc g0.
    - exists [], g0; rewrite app_nil_r; repeat split; constructor.
    - assert (Hstep : forall q,
                 simulate_trajectories q len (S n) acc g0 =
                 simulate_trajectories q len n
                   (acc ++ [[fst (uniform (-1) 1 g0)]])
                   (snd (uniform (-1) 1 g0))).
      { intros q; cbn [simulate_trajectories].
        destruct (uniform (-1) 1 g0) as [s0 g1]; rewrite Hk; reflexivity. }
      destruct (IH (acc ++ [[fst (uniform (-1) 1 g0)]]) (snd (uniform (-1) 1 g0)))
        as (trajs & g' & Hrun & Hn & Hall & Hany).
      exists ([fst (uniform (-1) 1 g0)] :: trajs), g'.
      rewrite Hstep, Hrun, <- app_assoc; cbn [app length].
      repeat split; [f_equal; exact Hn | constructor; [reflexivity | exact Hall] |].
      intros p'; rewrite Hstep, Hany, <- app_assoc; reflexivity. }
  destruct (Hgen pol [] g) as (trajs & g' & Hrun & Hn & Hall & Hany).
  split; [rewrite Hrun, (Hany pol'); reflexivity|].
  exists trajs, g'; auto.
Qed.

(** X4. An exception of the policy is not caught: when the policy raises
    [e] on every state, at least one trajectory is asked for and it is to
    hold at least two states, [monte_carlo_sim] raises [e]. *)
Theorem monte_carlo_sim_propagates_policy_exception :
  forall (pol : policy) (e : exn) (n_trajectories trajectory_length : nat)
         (g : rng),
    (forall s, pol s = Raise e) ->
    (1 <= n_trajectories)%nat ->
    (2 <= trajectory_length)%nat ->
    monte_carlo_sim pol n_trajectories trajectory_length g = Raise e.
Proof.
  intros pol e n len g Hpol Hn Hlen; unfold monte_carlo_sim.
  destruct n as [|n]; [lia|].
  destruct len as [|[|len]]; try lia.
  cbn [simulate_trajectories].
  destruct (uniform (-1) 1 g) as [s0 g0].
  replace (S (S len) - 1)%nat with (S len) by lia.
  cbn [extend_trajectory item_last bind].
  unfold step; rewrite Hpol; reflexivity.
Qed.

(** X5. Under the expert policy the state before noise is [- |s|]: a
    step from [s] returns [truncate_state (- |s| + noise)], and when unit
    draws lie in [0, 1) the state reached is below 0.5. *)
Theorem step_under_pi_star :
  forall (s : R) (g : rng),
    (forall g0, 0 <= fst (random_sample g0) < 1) ->
    step s pi_star g =
      Ok (truncate_state (- Rabs s + fst (noise g)), snd (noise g)) /\
    -0.5 <= fst (noise g) < 0.5 /\
    truncate_state (- Rabs s + fst (noise g)) < 0.5.
Proof.
  intros s g Hu.
  assert (Hn : -0.5 <= fst (noise g) < 0.5).
  { unfold noise, uniform; specialize (Hu g).
    destruct (random_sample g) as [u g1]; simpl in *; lra. }
  split; [|split; [exact Hn|]].
  - unfold step, pi_star; cbn [bind].
    destruct (noise g) as [n g1]; cbn [fst snd].
    replace ((if Rlt_dec s 0 then 1 else -1) * s) with (- Rabs s);
      [reflexivity|].
    destruct (Rlt_dec s 0).
    + rewrite Rabs_left by assumption; ring.
    + rewrite Rabs_right by lra; ring.
  - pose proof (Rabs_pos s).
    unfold truncate_state.
    destruct (Rgt_dec _ 1); [lra|]; destruct (Rlt_dec _ (-1)); lra.
Qed.

(** ** Further properties of the policies and of the reward model *)

Lemma linspace_unit_grid (z : R) (n : nat) :
  In z (np.linspace (-1) 1 n) ->
  exists i, (i < n)%nat /\ z = basis_mean n i.
Proof.
  intros Hin; apply (In_nth _ _ 0) in Hin.
  destruct Hin as (i & Hi & Hz); rewrite linspace_length in Hi.
  exists i; split; [exact Hi|].
  rewrite <- Hz; apply nth_linspace_basis_mean; exact Hi.
Qed.

(** X6. When [choice] returns an element of the list it is given, the
    random policy is a threshold rule: there are a shape in {-1, 1} and an
    inflection point [-1 + i / 10] with [i <= 20] such that the policy
    answers [- shape] below the inflection point and [shape] from it on.
    In particular it answers on every state, with an action in {-1, 1}. *)
Theorem construct_random_policy_threshold :
  forall g : rng,
    (forall l g0, l <> [] -> In (fst (choice l g0)) l) ->
    exists (shape inflection : R) (i : nat),
      (shape = -1 \/ shape = 1) /\
      (i <= 20)%nat /\
      inflection = -1 + INR i / 10 /\
      forall s,
        fst (construct_random_policy g) s =
          Ok (if Rlt_dec s inflection then - shape else shape) /\
        exists a,
          fst (construct_random_policy g) s = Ok a /\ (a = -1 \/ a = 1).
Proof.
  intros g Hchoice; unfold construct_random_policy.
  pose proof (Hchoice [-1; 1] g ltac:(discriminate)) as Hshape.
  destruct (choice [-1; 1] g) as [shape g1]; cbn [fst] in Hshape.
  assert (Hgrid : np.linspace (-1) 1 21 <> [])
    by (intros E; apply (f_equal (@length R)) in E;
        rewrite linspace_length in E; discriminate).
  pose proof (Hchoice (np.linspace (-1) 1 21) g1 Hgrid) as Hinfl.
  destruct (choice (np.linspace (-1) 1 21) g1) as [inflection g2];
    cbn [fst] in *.
  apply linspace_unit_grid in Hinfl; destruct Hinfl as (i & Hi & ->).
  assert (Hs : shape = -1 \/ shape = 1)
    by (destruct Hshape as [H|[H|[]]]; rewrite <- H; auto).
  exists shape, (basis_mean 21 i), i.
  split; [exact Hs|]; split; [lia|]; split.
  - unfold basis_mean; replace (21 - 1)%nat with 20%nat by reflexivity.
    replace (INR 20) with 20 by (simpl; ring); field.
  - intros s; split; [reflexivity|].
    eexists; split; [reflexivity|].
    destruct (Rlt_dec s (basis_mean 21 i)); destruct Hs as [Hs|Hs];
      rewrite Hs; [right | left | left | right]; ring.
Qed.

Lemma gaussian_density_pos (mu sigma s : R) :
  0 < sigma -> 0 < gaussian_density mu sigma s.
Proof.
  intros Hs; unfold gaussian_density.
  apply Rmult_lt_0_compat; [|apply exp_pos].
  apply Rinv_0_lt_compat, Rmult_lt_0_compat; [exact Hs|].
  apply sqrt_lt_R0; pose proof PI_RGT_0; lra.
Qed.

Lemma big_sum_nonneg (f : nat -> R) (n : nat) :
  (forall i, (i < n)%nat -> 0 <= f i) -> 0 <= big_sum f n.
Proof.
  induction n as [|n IH]; intros H; simpl; [lra|].
  specialize (IH (fun i Hi => H i (Nat.lt_lt_succ_r _ _ Hi))).
  specialize (H n (Nat.lt_succ_diag_r n)); lra.
Qed.

Lemma big_sum_plus (f h : nat -> R) (n : nat) :
  big_sum (fun i => f i + h i) n = big_sum f n + big_sum h n.
Proof.
  induction n as [|n IH]; simpl; [ring | rewrite IH; ring].
Qed.

Lemma big_sum_scale (k : R) (f : nat -> R) (n : nat) :
  big_sum (fun i => k * f i) n = k * big_sum f n.
Proof.
  induction n as [|n IH]; simpl; [ring | rewrite IH; ring].
Qed.

Lemma reward_function_sum (s : R) (a : ndarray) (n_basis : nat) :
  length a = n_basis ->
  reward_function s a n_basis =
  Ok (big_sum (fun i => nth i a 0 * phi n_basis i s) n_basis).
Proof.
  intros Ha; unfold reward_function, np.multiply.
  rewrite binop_same_length
    by (rewrite length_map, linspace_length; exact Ha).
  cbn [bind]; f_equal.
  change (np.sum (np.zip_with Rmult ?u ?v)) with (LP.dot u v).
  rewrite dot_big_sum by (rewrite length_map, linspace_length; exact Ha).
  rewrite Ha; apply big_sum_ext; intros i Hi; f_equal.
  rewrite (nth_map_lt _ _ _ 0 0) by (rewrite linspace_length; exact Hi).
  rewrite nth_linspace_basis_mean by exact Hi.
  unfold phi; apply pdf_is_gaussian_density; lra.
Qed.

(** X7. For a weight vector of [n_basis] components [reward_function]
    returns [sum_i alpha_i * phi_i(s)] over the [n_basis] Gaussian basis
    functions, and the reward is non-negative when no weight is
    negative. *)
Theorem reward_function_weighted_sum :
  forall (s : R) (a : ndarray) (n_basis : nat),
    length a = n_basis ->
    exists r,
      reward_function s a n_basis = Ok r /\
      r = big_sum (fun i => nth i a 0 * phi n_basis i s) n_basis /\
      (Forall (fun ai => 0 <= ai) a -> 0 <= r).
Proof.
  intros s a n_basis Ha; eexists; split; [apply reward_function_sum; exact Ha|].
  split; [reflexivity|]; intros Hpos.
  apply big_sum_nonneg; intros i Hi.
  apply Rmult_le_pos.
  - rewrite Forall_forall in Hpos; apply Hpos, nth_In; lia.
  - apply Rlt_le, gaussian_density_pos; lra.
Qed.

Lemma binop_raise_iff (f : R -> R -> R) (u v : ndarray) :
  (exists e, np.binop f u v = Raise e) <->
  length u <> length v /\ length u <> 1%nat /\ length v <> 1%nat.
Proof.
  unfold np.binop.
  destruct (Nat.eqb_spec (length u) (length v)) as [E|E].
  - split; [intros [e H]; discriminate | intros (H & _); contradiction].
  - destruct u as [|a [|a' u]], v as [|b [|b' v]]; cbn [length] in *;
      (split; [intros [e H]; try discriminate; repeat split; lia
              | intros (_ & H1 & H2); try lia; eexists; reflexivity]).
Qed.

Lemma binop_raise_value (f : R -> R -> R) (u v : ndarray) (e : exn) :
  np.binop f u v = Raise e ->
  e = ValueError "operands could not be broadcast together".
Proof.
  unfold np.binop.
  destruct (Nat.eqb (length u) (length v)); [discriminate|].
  destruct u as [|a [|a' u]], v as [|b [|b' v]]; intros H;
    try discriminate; inversion H; reflexivity.
Qed.

(** X8. [reward_function] raises exactly when the weight vector cannot be
    broadcast against the [n_basis] basis values: its length differs from
    [n_basis] and neither of the two is 1.  The exception is numpy's
    [ValueError]. *)
Theorem reward_function_raises_iff :
  forall (s : R) (a : ndarray) (n_basis : nat),
    ((exists e, reward_function s a n_basis = Raise e) <->
     length a <> n_basis /\ length a <> 1%nat /\ n_basis <> 1%nat) /\
    (forall e, reward_function s a n_basis = Raise e ->
               e = ValueError "operands could not be broadcast together").
Proof.
  intros s a n_basis.
  assert (Hshape :
            forall r : result R,
              r = reward_function s a n_basis ->
              forall e,
                r = Raise e <->
                np.binop Rmult a
                  (map (fun m => norm.pdf s m (2 / 22))
                       (np.linspace (-1) 1 n_basis)) = Raise e).
  { intros r -> e; unfold reward_function, np.multiply.
    destruct (np.binop Rmult a _) as [prod|e']; cbn [bind];
      split; intros H; try discriminate; inversion H; reflexivity. }
  split.
  - pose proof (binop_raise_iff Rmult a
                  (map (fun m => norm.pdf s m (2 / 22))
                       (np.linspace (-1) 1 n_basis))) as Hiff.
    rewrite length_map, linspace_length in Hiff.
    rewrite <- Hiff.
    split; intros [e H]; exists e; apply (Hshape _ eq_refl e); exact H.
  - intros e H; apply (Hshape _ eq_refl e) in H.
    eapply binop_raise_value; exact H.
Qed.

(** X9. The reward is linear in the weights: for two weight vectors of
    [n_basis] components, the reward of their sum is the sum of their
    rewards, and scaling the weights by [k] scales the reward by [k]. *)
Theorem reward_function_linear :
  forall (s k : R) (a b : ndarray) (n_basis : nat),
    length a = n_basis ->
    length b = n_basis ->
    exists ra rb,
      reward_function s a n_basis = Ok ra /\
      reward_function s b n_basis = Ok rb /\
      reward_function s (np.zip_with Rplus a b) n_basis = Ok (ra + rb) /\
      reward_function s (map (Rmult k) a) n_basis = Ok (k * ra).
Proof.
  intros s k a b n_basis Ha Hb.
  do 2 eexists.
  split; [apply reward_function_sum; exact Ha|].
  split; [apply reward_function_sum; exact Hb|].
  split.
  - rewrite reward_function_sum by (rewrite zip_with_length; congruence).
    f_equal; rewrite <- big_sum_plus.
    apply big_sum_ext; intros i Hi.
    rewrite nth_zip_with by congruence; ring.
  - rewrite reward_function_sum by (rewrite length_map; exact Ha).
    f_equal; rewrite <- big_sum_scale.
    apply big_sum_ext; intros i Hi.
    rewrite (nth_map_lt _ _ _ 0 0) by congruence; ring.
Qed.

Lemma big_sum_zero (n : nat) : big_sum (fun _ => 0) n = 0.
Proof.
  induction n as [|n IH]; simpl; [reflexivity | rewrite IH; ring].
Qed.

(** X10. The reward-greedy policy answers 1 or -1 whenever the weights
    have [n_basis] components, and with all-zero weights the reward is 0,
    so the policy answers -1 on every state. *)
Theorem pi_updated_actions :
  forall (s : R) (a : ndarray) (n_basis : nat),
    length a = n_basis ->
    (exists action,
        pi_updated a n_basis s = Ok action /\ (action = 1 \/ action = -1)) /\
    reward_function s (np.zeros n_basis) n_basis = Ok 0 /\
    pi_updated (np.zeros n_basis) n_basis s = Ok (-1).
Proof.
  intros s a n_basis Ha.
  assert (Hzero : reward_function s (np.zeros n_basis) n_basis = Ok 0).
  { rewrite reward_function_sum by (unfold np.zeros; apply repeat_length).
    f_equal.
    rewrite (big_sum_ext _ (fun _ => 0)); [apply big_sum_zero|].
    intros i _; rewrite nth_zeros; ring. }
  split; [|split; [exact Hzero|]].
  - unfold pi_updated; rewrite (reward_function_sum s a n_basis Ha); cbn [bind].
    eexists; split; [reflexivity|].
    destruct (Rgt_dec _ 0.5); auto.
  - unfold pi_updated; rewrite Hzero; cbn [bind].
    destruct (Rgt_dec 0 0.5); [lra | reflexivity].
Qed.

(** ** Further properties of the value estimator *)

Lemma binop_singleton_right (f : R -> R -> R) (u : ndarray) (y : R) :
  np.binop f u [y] = Ok (map (fun a => f a y) u).
Proof.
  destruct u as [|a [|a' u]]; reflexivity.
Qed.

Lemma sum_map_big_sum (h : R -> R) (l : list R) :
  np.sum (map h l) = big_sum (fun t => h (nth t l 0)) (length l).
Proof.
  induction l as [|a l IH]; [reflexivity|].
  cbn [map length]; rewrite big_sum_shift.
  change (np.sum (?u :: ?v)) with (u + np.sum v).
  rewrite IH; reflexivity.
Qed.

Lemma mean_map_average {A : Type} (h : A -> R) (l : list A) :
  np.mean (map h l) = average h l.
Proof.
  unfold np.mean, average; rewrite sum_map, length_map; reflexivity.
Qed.

(** X11. When the first trajectory of the batch has a single state the
    discount vector is [[1]] and numpy stretches it over every other
    trajectory: whatever their lengths, the estimator raises nothing and
    component [i] is the average of the undiscounted sums
    [sum_t phi_i(s_t)]. *)
Theorem value_estimate_single_state_head_ignores_discount :
  forall (s0 : R) (rest : list (list R)) (discount : R) (n_basis : nat),
  exists values,
    calc_value_function_estimate ([s0] :: rest) discount n_basis = Ok values /\
    length values = n_basis /\
    forall i, (i < n_basis)%nat ->
      nth i values 0 =
      average (fun traj =>
                 big_sum (fun t => phi n_basis i (nth t traj 0)) (length traj))
              ([s0] :: rest).
Proof.
  intros s0 rest discount n_basis.
  set (ret := fun (m : R) (traj : list R) =>
         big_sum (fun t => norm.pdf (nth t traj 0) m (2 / 22)) (length traj)).
  assert (Hcalc :
            calc_value_function_estimate ([s0] :: rest) discount n_basis =
            Ok (map (fun m => np.mean (map (ret m) ([s0] :: rest)))
                    (np.linspace (-1) 1 n_basis))).
  { unfold calc_value_function_estimate.
    apply mapM_total; intros m _.
    rewrite (mapM_total _ (ret m)); [reflexivity|].
    intros traj _; unfold traj_return, np.multiply.
    cbn [length seq map pow].
    rewrite binop_singleton_right; cbn [bind]; f_equal.
    rewrite map_map, sum_map_big_sum; unfold ret.
    apply big_sum_ext; intros t _; ring. }
  eexists; split; [exact Hcalc|].
  split; [rewrite length_map; apply linspace_length|].
  intros i Hi.
  rewrite (nth_map_lt _ _ _ 0 0) by (rewrite linspace_length; exact Hi).
  rewrite nth_linspace_basis_mean, mean_map_average by exact Hi.
  unfold average; f_equal.
  generalize ([s0] :: rest) as trajs.
  induction trajs as [|traj trajs IH]; [reflexivity|].
  cbn [fold_right]; rewrite IH; f_equal.
  unfold ret, phi; apply big_sum_ext; intros t _.
  apply pdf_is_gaussian_density; lra.
Qed.

Lemma mapM_raise {A B : Type} (f : A -> result B) (l : list A) (a : A) (e : exn) :
  In a l ->
  f a = Raise e ->
  (forall b e', f b = Raise e' -> e' = e) ->
  mapM f l = Raise e.
Proof.
  intros Hin Ha Hsame; induction l as [|b l IH]; [destruct Hin|].
  cbn [mapM]; destruct (f b) as [y|e'] eqn:Hb; cbn [bind].
  - destruct Hin as [->|Hin]; [congruence|].
    rewrite (IH Hin); reflexivity.
  - rewrite (Hsame b e' Hb); reflexivity.
Qed.

(** X12. A ragged batch is an error: when some trajectory after the
    first has a length that differs from the first one's, neither of the
    two lengths is 1 and there is at least one basis function, the
    estimator raises numpy's broadcasting [ValueError]. *)
Theorem value_estimate_ragged_batch_raises :
  forall (traj0 : list R) (rest : list (list R)) (traj : list R)
         (discount : R) (n_basis : nat),
    In traj rest ->
    length traj <> length traj0 ->
    length traj <> 1%nat ->
    length traj0 <> 1%nat ->
    (1 <= n_basis)%nat ->
    calc_value_function_estimate (traj0 :: rest) discount n_basis =
    Raise (ValueError "operands could not be broadcast together").
Proof.
  intros traj0 rest traj discount n_basis Hin Hne H1 H01 Hn.
  assert (Hret : forall m' tr e,
             traj_return m' (2 / 22)
               (map (fun t => discount ^ t) (seq 0 (length traj0))) tr = Raise e ->
             e = ValueError "operands could not be broadcast together").
  { intros m' tr e; unfold traj_return, np.multiply.
    destruct (np.binop Rmult _ _) as [prod|e'] eqn:Hb; cbn [bind];
      intros H; [discriminate|].
    inversion H; subst; eapply binop_raise_value; exact Hb. }
  assert (Hinner : forall m,
             mapM (traj_return m (2 / 22)
                     (map (fun t => discount ^ t) (seq 0 (length traj0))))
                  (traj0 :: rest) =
             Raise (ValueError "operands could not be broadcast together")).
  { intros m.
    apply (mapM_raise _ _ traj); [right; exact Hin | | intros b e'; apply Hret].
    destruct (traj_return m (2 / 22)
                (map (fun t => discount ^ t) (seq 0 (length traj0))) traj)
      as [r|e] eqn:Hr; [|rewrite (Hret _ _ _ Hr); reflexivity].
    exfalso; unfold traj_return, np.multiply in Hr.
    destruct (np.binop Rmult (map (fun s => norm.pdf s m (2 / 22)) traj)
                (map (fun t => discount ^ t) (seq 0 (length traj0))))
      as [prod|e] eqn:Hb; [|discriminate].
    assert (Hex : exists e,
               np.binop Rmult (map (fun s => norm.pdf s m (2 / 22)) traj)
                 (map (fun t => discount ^ t) (seq 0 (length traj0))) = Raise e).
    { apply binop_raise_iff; rewrite !length_map, length_seq; auto. }
    destruct Hex as [e He]; congruence. }
  unfold calc_value_function_estimate; cbv beta iota zeta.
  pose proof (linspace_length (-1) 1 n_basis) as Hlen.
  destruct (np.linspace (-1) 1 n_basis) as [|m means]; [simpl in Hlen; lia|].
  apply (mapM_raise _ _ m); [left; reflexivity | |].
  - rewrite Hinner; reflexivity.
  - intros m' e'; rewrite Hinner; cbn [bind]; intros H; inversion H; reflexivity.
Qed.

Lemma mapM_Forall {A B : Type} (f : A -> result B) (P : B -> Prop) (l : list A)
      (bs : list B) :
  (forall a b, In a l -> f a = Ok b -> P b) ->
  mapM f l = Ok bs ->
  Forall P bs.
Proof.
  revert bs; induction l as [|a l IH]; intros bs Hf H; cbn [mapM] in H.
  - inversion H; constructor.
  - apply bind_ok in H; destruct H as (b & Hb & H).
    apply bind_ok in H; destruct H as (bs' & Hbs & H).
    inversion H; subst; constructor.
    + apply (Hf a b); [left; reflexivity | exact Hb].
    + apply IH; [|exact Hbs].
      intros a' b' Hin; apply Hf; right; exact Hin.
Qed.

Lemma zip_with_mult_nonneg (u v : ndarray) :
  Forall (fun a => 0 <= a) u ->
  Forall (fun a => 0 <= a) v ->
  Forall (fun a => 0 <= a) (np.zip_with Rmult u v).
Proof.
  intros Hu; revert v; induction Hu as [|a u Ha _ IH]; intros v Hv;
    [constructor|].
  destruct Hv as [|b v Hb Hv]; constructor;
    [apply Rmult_le_pos; assumption | apply IH; exact Hv].
Qed.

Lemma binop_mult_nonneg (u v w : ndarray) :
  Forall (fun a => 0 <= a) u ->
  Forall (fun a => 0 <= a) v ->
  np.binop Rmult u v = Ok w ->
  Forall (fun a => 0 <= a) w.
Proof.
  intros Hu Hv; unfold np.binop.
  destruct (Nat.eqb (length u) (length v)).
  - intros H; inversion H; subst; apply zip_with_mult_nonneg; assumption.
  - assert (Hmap : forall c l, 0 <= c -> Forall (fun a => 0 <= a) l ->
                               Forall (fun a => 0 <= a) (map (fun a => a * c) l)).
    { intros c l Hc Hl; induction Hl; constructor;
        [apply Rmult_le_pos; assumption | assumption]. }
    assert (Hmap' : forall c l, 0 <= c -> Forall (fun a => 0 <= a) l ->
                                Forall (fun a => 0 <= a) (map (fun a => c * a) l)).
    { intros c l Hc Hl; induction Hl; constructor;
        [apply Rmult_le_pos; assumption | assumption]. }
    destruct u as [|a [|a' u]], v as [|b [|b' v]]; intros H;
      try discriminate; injection H as <-;
      repeat match goal with
             | F : Forall _ (_ :: _) |- _ => inversion F; clear F; subst
             end;
      repeat (constructor; [apply Rmult_le_pos; assumption|]);
      first [ constructor | apply Hmap; assumption | apply Hmap'; assumption ].
Qed.

Lemma sum_nonneg (l : ndarray) :
  Forall (fun a => 0 <= a) l -> 0 <= np.sum l.
Proof.
  intros H; induction H as [|a l Ha _ IH]; [simpl; lra|].
  change (np.sum (a :: l)) with (a + np.sum l); lra.
Qed.

(** X13. With a non-negative discount every component of a value
    estimate is non-negative, on any batch on which the estimator
    returns. *)
Theorem value_estimate_nonneg :
  forall (trajectories : list (list R)) (discount : R) (n_basis : nat)
         (values : ndarray),
    0 <= discount ->
    calc_value_function_estimate trajectories discount n_basis = Ok values ->
    Forall (fun v => 0 <= v) values.
Proof.
  intros trajectories discount n_basis values Hd Hcalc.
  unfold calc_value_function_estimate in Hcalc.
  eapply mapM_Forall; [|exact Hcalc].
  intros m v _ Hv; cbn beta in Hv.
  apply bind_ok in Hv; destruct Hv as (traj_returns & Hrets & Hv).
  inversion Hv; subst v; clear Hv.
  assert (Hpos : Forall (fun r => 0 <= r) traj_returns).
  { eapply mapM_Forall; [|exact Hrets].
    intros traj r _ Hr; unfold traj_return, np.multiply in Hr.
    apply bind_ok in Hr; destruct Hr as (prod & Hprod & Hr).
    inversion Hr; subst r; apply sum_nonneg.
    eapply binop_mult_nonneg; [| |exact Hprod].
    - apply Forall_forall; intros p Hp.
      apply in_map_iff in Hp; destruct Hp as (s & <- & _).
      rewrite pdf_is_gaussian_density by lra.
      apply Rlt_le, gaussian_density_pos; lra.
    - apply Forall_forall; intros p Hp.
      apply in_map_iff in Hp; destruct Hp as (t & <- & _).
      apply pow_le; exact Hd. }
  destruct (Nat.ltb_spec 0 (length traj_returns)) as [Hlen|_]; [|lra].
  unfold np.mean; apply Rmult_le_pos; [apply sum_nonneg; exact Hpos|].
  apply Rlt_le, Rinv_0_lt_compat, lt_0_INR; exact Hlen.
Qed.

Lemma sum_permutation (l l' : ndarray) :
  Permutation l l' -> np.sum l = np.sum l'.
Proof.
  intros H; induction H as [|a l l' _ IH|a b l|l l' l'' _ IH1 _ IH2].
  - reflexivity.
  - change (a + np.sum l = a + np.sum l'); rewrite IH; reflexivity.
  - change (b + (a + np.sum l) = a + (b + np.sum l)); ring.
  - congruence.
Qed.

(** X14. On trajectories of one length the estimate does not depend on
    the order of the batch: a permutation of the trajectories gives the
    same vector. *)
Theorem value_estimate_order_independent :
  forall (trajectories trajectories' : list (list R)) (discount : R)
         (n_basis T : nat),
    Permutation trajectories trajectories' ->
    Forall (fun traj => length traj = T) trajectories ->
    calc_value_function_estimate trajectories discount n_basis =
    calc_value_function_estimate trajectories' discount n_basis.
Proof.
  intros trajs trajs' discount n_basis T Hperm Hall.
  assert (Hall' : Forall (fun traj => length traj = T) trajs')
    by (eapply Permutation_Forall; eassumption).
  rewrite (calc_value_function_estimate_total _ discount n_basis T Hall).
  rewrite (calc_value_function_estimate_total _ discount n_basis T Hall').
  f_equal; apply map_ext; intros m.
  rewrite (Permutation_length Hperm).
  destruct (Nat.ltb 0 (length trajs')); [|reflexivity].
  unfold np.mean; rewrite !length_map, (Permutation_length Hperm).
  f_equal; apply sum_permutation, Permutation_map; exact Hperm.
Qed.

(** X15. Whatever the generator returns can be estimated: when
    [monte_carlo_sim] returns a batch, [calc_value_function_estimate]
    raises nothing on it and returns a vector of [n_basis] components. *)
Theorem value_estimate_of_simulated_batch :
  forall (pol : policy) (n_trajectories trajectory_length : nat) (g : rng)
         (trajectories : list (list R)) (g' : rng) (discount : R)
         (n_basis : nat),
    monte_carlo_sim pol n_trajectories trajectory_length g =
      Ok (trajectories, g') ->
    exists values,
      calc_value_function_estimate trajectories discount n_basis = Ok values /\
      length values = n_basis.
Proof.
  intros pol n len g trajectories g' discount n_basis Hrun.
  apply simulate_trajectories_inv in Hrun.
  destruct Hrun as (trajs & -> & _ & _ & Hall); simpl.
  pose proof (calc_value_function_estimate_total trajs discount n_basis _ Hall)
    as Hcalc.
  eexists; split; [exact Hcalc|].
  eapply calc_value_function_estimate_length; exact Hcalc.
Qed.

(** ** Further properties of the weight-recovery solver *)

(** X16. Degenerate histories: on an empty history the solver raises
    [IndexError] before any program is posed, and on a history that holds
    the expert's estimate alone the objective coefficients are all zero. *)
Theorem solve_lp_degenerate_histories :
  forall (value_pi_star expert : ndarray),
    solve_lp_for_alphas value_pi_star [] =
      Raise (IndexError "list index out of range") /\
    total_diff_of [expert] = Ok (np.zeros (length expert)).
Proof.
  intros v expert; repeat split.
Qed.

(** X17. A candidate whose shape does not fit the expert's is an error:
    when the first estimate of the history and the expert's have
    different lengths, neither of them 1, the solver raises numpy's
    broadcasting [ValueError] and poses no program. *)
Theorem solve_lp_ragged_history_raises :
  forall (value_pi_star V0 : ndarray) (others : list ndarray) (expert : ndarray),
    length expert <> length V0 ->
    length expert <> 1%nat ->
    length V0 <> 1%nat ->
    solve_lp_for_alphas value_pi_star (V0 :: others ++ [expert]) =
    Raise (ValueError "operands could not be broadcast together").
Proof.
  intros v V0 others expert Hne He H0.
  unfold solve_lp_for_alphas, total_diff_of.
  change (V0 :: others ++ [expert]) with ((V0 :: others) ++ [expert]).
  rewrite item_last_snoc; cbn [bind].
  rewrite length_app, Nat.add_sub.
  cbn [length seq accumulate_diffs app item nth_error bind].
  destruct (proj2 (binop_raise_iff Rminus expert V0) (conj Hne (conj He H0)))
    as [e Hraise].
  unfold np.subtract; rewrite Hraise, (binop_raise_value _ _ _ _ Hraise).
  reflexivity.
Qed.

Lemma margin_permutation (candidates candidates' : list ndarray)
      (expert : ndarray) (i : nat) :
  Permutation candidates candidates' ->
  margin candidates expert i = margin candidates' expert i.
Proof.
  intros H; unfold margin.
  induction H as [|V l l' _ IH|V W l|l l' l'' _ IH1 _ IH2]; cbn [fold_right].
  - reflexivity.
  - rewrite IH; reflexivity.
  - ring.
  - congruence.
Qed.

(** X18. Only the position of the expert's estimate matters: on vectors
    of one length, permuting the candidate estimates in front of the
    expert's leaves the objective coefficients, and with them the
    solver's result, unchanged. *)
Theorem solve_lp_candidate_order_independent :
  forall (value_pi_star value_pi_star' : ndarray)
         (candidates candidates' : list ndarray) (expert : ndarray) (n : nat),
    Permutation candidates candidates' ->
    Forall (fun V => length V = n) (candidates ++ [expert]) ->
    total_diff_of (candidates ++ [expert]) =
      total_diff_of (candidates' ++ [expert]) /\
    solve_lp_for_alphas value_pi_star (candidates ++ [expert]) =
      solve_lp_for_alphas value_pi_star' (candidates' ++ [expert]).
Proof.
  intros v v' cands cands' expert n Hperm Hall.
  assert (Hall' : Forall (fun V => length V = n) (cands' ++ [expert])).
  { eapply Permutation_Forall; [|exact Hall].
    apply Permutation_app_tail; exact Hperm. }
  destruct (total_diff_of_margin cands expert n Hall) as (td & Htd & Hlen & Hnth).
  destruct (total_diff_of_margin cands' expert n Hall')
    as (td' & Htd' & Hlen' & Hnth').
  assert (Heq : td = td').
  { apply (nth_ext _ _ 0 0); [congruence|].
    intros i Hi; rewrite Hlen in Hi.
    rewrite (Hnth i Hi), (Hnth' i Hi).
    apply margin_permutation; exact Hperm. }
  assert (Hsame : total_diff_of (cands ++ [expert]) =
                  total_diff_of (cands' ++ [expert])) by congruence.
  split; [exact Hsame|].
  unfold solve_lp_for_alphas; rewrite Hsame; reflexivity.
Qed.

Lemma big_sum_update (m a : nat -> R) (i n : nat) (c : R) :
  (i < n)%nat ->
  big_sum (fun j => m j * (if Nat.eqb j i then c else a j)) n =
  big_sum (fun j => m j * a j) n + m i * (c - a i).
Proof.
  induction n as [|n IH]; intros Hi; [lia|].
  cbn [big_sum].
  destruct (Nat.eqb_spec n i) as [->|Hne].
  - rewrite (big_sum_ext _ (fun j => m j * a j)); [ring|].
    intros t Ht; destruct (Nat.eqb_spec t i); [lia | reflexivity].
  - rewrite IH by lia; ring.
Qed.

Lemma in_box_update (n i : nat) (a : ndarray) (c : R) :
  in_box n a -> 0 <= c <= 1 ->
  in_box n (map (fun j => if Nat.eqb j i then c else nth j a 0) (seq 0 n)).
Proof.
  intros [Hlen Hb] Hc; split; [rewrite length_map, length_seq; reflexivity|].
  apply Forall_forall; intros y Hy.
  apply in_map_iff in Hy; destruct Hy as (j & <- & Hj); apply in_seq in Hj.
  destruct (Nat.eqb j i); [exact Hc|].
  rewrite Forall_forall in Hb; apply Hb, nth_In; lia.
Qed.

Lemma objective_update (candidates : list ndarray) (expert a : ndarray)
      (n i : nat) (c : R) :
  (i < n)%nat ->
  objective candidates expert n
            (map (fun j => if Nat.eqb j i then c else nth j a 0) (seq 0 n)) =
  objective candidates expert n a +
  margin candidates expert i * (c - nth i a 0).
Proof.
  intros Hi; unfold objective.
  rewrite <- (big_sum_update (margin candidates expert) (fun j => nth j a 0) i n c Hi).
  apply big_sum_ext; intros j Hj; f_equal.
  rewrite (nth_map_lt _ _ _ 0 O) by (rewrite length_seq; exact Hj).
  rewrite seq_nth by exact Hj; reflexivity.
Qed.

Section BackendExactWeights.

Hypothesis linprog_sound :
  forall c A_ub b_ub bounds,
    c <> [] ->
    success (linprog c A_ub b_ub bounds) = true ->
    LP.optimal c A_ub b_ub bounds (x (linprog c A_ub b_ub bounds)).

Hypothesis linprog_complete :
  forall c A_ub b_ub bounds,
    c <> [] ->
    (exists y, LP.optimal c A_ub b_ub bounds y) ->
    success (linprog c A_ub b_ub bounds) = true.

(** X19. With an exact backend, on estimates of [n >= 1] components, the
    recovered weights are decided component by component wherever the
    summed margin is not zero: [alpha_i = 1] where the expert's estimate
    exceeds the candidates' in total, [alpha_i = 0] where it falls short;
    and the margin attained, [total_diff . alpha], is never negative. *)
Theorem solve_lp_weights_saturate :
  forall (value_pi_star : ndarray) (candidates : list ndarray)
         (expert : ndarray) (n : nat),
    (1 <= n)%nat ->
    Forall (fun V => length V = n) (candidates ++ [expert]) ->
    exists alpha_next,
      solve_lp_for_alphas value_pi_star (candidates ++ [expert]) =
        Ok alpha_next /\
      (forall i, (i < n)%nat ->
                 0 < margin candidates expert i -> nth i alpha_next 0 = 1) /\
      (forall i, (i < n)%nat ->
                 margin candidates expert i < 0 -> nth i alpha_next 0 = 0) /\
      0 <= objective candidates expert n alpha_next.
Proof.
  intros v cands expert n Hn Hall.
  destruct (solve_lp_maximizes linprog_sound linprog_complete v cands expert n
              Hn Hall)
    as (a & Hsolve & Hbox & Hmax).
  exists a; split; [exact Hsolve|].
  assert (Hai : forall i, (i < n)%nat -> 0 <= nth i a 0 <= 1).
  { intros i Hi; destruct Hbox as [Hlen Hb].
    rewrite Forall_forall in Hb; apply Hb, nth_In; lia. }
  repeat split.
  - intros i Hi Hpos.
    pose proof (Hmax _ (in_box_update n i a 1 Hbox ltac:(lra))) as H.
    rewrite objective_update in H by exact Hi.
    specialize (Hai i Hi); nra.
  - intros i Hi Hneg.
    pose proof (Hmax _ (in_box_update n i a 0 Hbox ltac:(lra))) as H.
    rewrite objective_update in H by exact Hi.
    specialize (Hai i Hi); nra.
  - assert (Hz : in_box n (np.zeros n)).
    { split; [unfold np.zeros; apply repeat_length|].
      apply Forall_forall; intros y Hy; unfold np.zeros in Hy.
      apply repeat_spec in Hy; lra. }
    pose proof (Hmax _ Hz) as H.
    replace (objective cands expert n (np.zeros n)) with 0 in H; [exact H|].
    unfold objective; symmetry.
    rewrite (big_sum_ext _ (fun _ => 0)); [apply big_sum_zero|].
    intros i _; rewrite nth_zeros; ring.
Qed.

End BackendExactWeights.

(** ** Further properties of the driver *)

Lemma iterate_preserves (pp : bool) (discount : R) (n_basis : nat)
      (P : loop_state -> Prop) :
  (forall st st',
      P st -> loop_body pp discount n_basis st = Ok (Continue st') -> P st') ->
  forall k st0 st,
    P st0 -> iterate pp discount n_basis k st0 = Some st -> P st.
Proof.
  intros Hstep; induction k as [|k IH]; intros st0 st H0 Hk.
  - inversion Hk; subst; exact H0.
  - cbn [iterate] in Hk.
    destruct (loop_body pp discount n_basis st0) as [[st1|r]|e] eqn:Hb;
      try discriminate.
    apply (IH st1 st); [eapply Hstep; eassumption | exact Hk].
Qed.

Lemma iterate_snoc_inv (pp : bool) (discount : R) (n_basis : nat) :
  forall k st0 st',
    iterate pp discount n_basis (S k) st0 = Some st' ->
    exists st,
      iterate pp discount n_basis k st0 = Some st /\
      loop_body pp discount n_basis st = Ok (Continue st').
Proof.
  induction k as [|k IH]; intros st0 st' H.
  - cbn [iterate] in H.
    destruct (loop_body pp discount n_basis st0) as [[st1|r]|e] eqn:Hb;
      try discriminate.
    inversion H; subst; exists st0; split; [reflexivity | exact Hb].
  - change (iterate pp discount n_basis (S (S k)) st0)
      with (match loop_body pp discount n_basis st0 with
            | Ok (Continue st1) => iterate pp discount n_basis (S k) st1
            | _ => None
            end) in H.
    destruct (loop_body pp discount n_basis st0) as [[st1|r]|e] eqn:Hb;
      try discriminate.
    destruct (IH st1 st' H) as (st & Hit & Hbody).
    exists st; split; [|exact Hbody].
    cbn [iterate]; rewrite Hb; exact Hit.
Qed.

Lemma driver_ok_inv (data : list (list R)) (max_iter : nat) (pp : bool)
      (discount : R) (n_basis : nat) (g : rng) (res : outcome) :
  lp_irl_sample_trajectories data max_iter pp discount n_basis g = Ok res ->
  exists value_pi_star,
    calc_value_function_estimate data discount n_basis = Ok value_pi_star /\
    for_loop pp discount n_basis max_iter
             (initial_state value_pi_star n_basis g) = Ok res.
Proof.
  unfold lp_irl_sample_trajectories; intros H.
  apply bind_ok in H; exact H.
Qed.

(** X20. A driver allowed at most four iterations cannot converge: when
    it returns, it has run all [max_iter] iterations, the history holds
    [max_iter + 1] estimates and no convergence message was printed; with
    [max_iter = 0] it returns the initial all-zero weights. *)
Theorem driver_short_run_exhausts :
  forall (data : list (list R)) (max_iter : nat) (print_progress : bool)
         (discount : R) (n_basis : nat) (g : rng) (res : outcome),
    (max_iter <= 4)%nat ->
    lp_irl_sample_trajectories data max_iter print_progress discount
                               n_basis g = Ok res ->
    length (ret_value_functions res) = (max_iter + 1)%nat /\
    (forall j, ~ In (PrintConverged j) (ret_stdout res)) /\
    (max_iter = 0%nat -> ret_alpha res = np.zeros n_basis).
Proof.
  intros data max_iter pp discount n_basis g res Hmax Hrun.
  apply driver_ok_inv in Hrun; destruct Hrun as (vstar & _ & Hrun).
  destruct (initial_state_fields vstar n_basis g) as (Hi0 & Ha0 & Hv0 & Ho0).
  apply for_loop_inv in Hrun; destruct Hrun as (k & st & Hk & Hit & Hcase).
  destruct (iterate_invariant _ _ _ _ _ _ Hit) as (Hi & (cands & Hv & Hl) & Hp).
  destruct Hcase as [[-> ->]|[Hlt Hret]].
  - cbn; repeat split.
    + rewrite Hv, length_app, Hv0, Hl; reflexivity.
    + intros j Hj; apply Hp in Hj; rewrite Ho0 in Hj; exact Hj.
    + intros ->; cbn [iterate] in Hit; inversion Hit; subst; exact Ha0.
  - exfalso; apply loop_body_inv in Hret.
    destruct Hret as (a & vfs & g' & stop & _ & Hs & Hres).
    destruct stop; [|discriminate].
    apply converged_true_inv in Hs; lia.
Qed.

(** X21. With [print_progress] off the driver prints nothing. *)
Theorem driver_silent_without_progress :
  forall (data : list (list R)) (max_iter : nat) (discount : R)
         (n_basis : nat) (g : rng) (res : outcome),
    lp_irl_sample_trajectories data max_iter false discount n_basis g = Ok res ->
    ret_stdout res = [].
Proof.
  intros data max_iter discount n_basis g res Hrun.
  apply driver_ok_inv in Hrun; destruct Hrun as (vstar & _ & Hrun).
  destruct (initial_state_fields vstar n_basis g) as (_ & _ & _ & Ho0).
  apply for_loop_inv in Hrun; destruct Hrun as (k & st & _ & Hit & Hcase).
  assert (Hquiet : stdout st = []).
  { apply (iterate_preserves false discount n_basis (fun s => stdout s = [])
             ) with (k := k) (st0 := initial_state vstar n_basis g);
      [|exact Ho0 | exact Hit].
    intros s s' Hs Hb; apply loop_body_inv in Hb.
    destruct Hb as (a & vfs & g' & stop & _ & _ & Hc).
    destruct stop; [discriminate|]; inversion Hc; subst s'; cbn.
    rewrite Hs; reflexivity. }
  destruct Hcase as [[_ ->]|[_ Hret]]; [exact Hquiet|].
  apply loop_body_inv in Hret.
  destruct Hret as (a & vfs & g' & stop & _ & _ & Hc).
  destruct stop; [|discriminate]; inversion Hc; subst res; cbn.
  rewrite Hquiet; reflexivity.
Qed.

Lemma driver_result_solves_history (data : list (list R)) (max_iter : nat)
      (pp : bool) (discount : R) (n_basis : nat) (g : rng) (res : outcome)
      (w : ndarray) :
  (1 <= max_iter)%nat ->
  lp_irl_sample_trajectories data max_iter pp discount n_basis g = Ok res ->
  solve_lp_for_alphas w (ret_value_functions res) = Ok (ret_alpha res).
Proof.
  intros Hmax Hrun.
  apply driver_ok_inv in Hrun; destruct Hrun as (vstar & _ & Hrun).
  apply for_loop_inv in Hrun; destruct Hrun as (k & st & _ & Hit & Hcase).
  destruct Hcase as [[-> ->]|[_ Hret]].
  - destruct max_iter as [|k]; [lia|].
    apply iterate_snoc_inv in Hit; destruct Hit as (st1 & _ & Hb).
    apply loop_body_inv in Hb.
    destruct Hb as (a & vfs & g' & stop & Hc & _ & Hst).
    destruct stop; [discriminate|]; inversion Hst; subst st; cbn.
    apply candidate_alpha_inv in Hc.
    destruct Hc as (traj & v & _ & _ & _ & Hsolve); exact Hsolve.
  - apply loop_body_inv in Hret.
    destruct Hret as (a & vfs & g' & stop & Hc & _ & Hst).
    destruct stop; [|discriminate]; inversion Hst; subst res; cbn.
    apply candidate_alpha_inv in Hc.
    destruct Hc as (traj & v & _ & _ & _ & Hsolve); exact Hsolve.
Qed.

(** X22. The weights the driver returns are the solver's answer on the
    history it returns: when at least one iteration is allowed, solving
    the returned history again gives the returned weights. *)
Theorem driver_returns_solution_of_returned_history :
  forall (data : list (list R)) (max_iter : nat) (print_progress : bool)
         (discount : R) (n_basis : nat) (g : rng) (res : outcome)
         (w : ndarray),
    (1 <= max_iter)%nat ->
    lp_irl_sample_trajectories data max_iter print_progress discount
                               n_basis g = Ok res ->
    solve_lp_for_alphas w (ret_value_functions res) = Ok (ret_alpha res).
Proof.
  intros data max_iter pp discount n_basis g res w Hmax Hrun.
  eapply driver_result_solves_history; eassumption.
Qed.

Section BackendFeasibleDriver.

Hypothesis linprog_feasible :
  forall c A_ub b_ub bounds,
    success (linprog c A_ub b_ub bounds) = true ->
    LP.feasible c A_ub b_ub bounds (x (linprog c A_ub b_ub bounds)).

Lemma solve_lp_in_box (w : ndarray) (hist : list ndarray) (a : ndarray) :
  solve_lp_for_alphas w hist = Ok a -> Forall (fun ai => 0 <= ai <= 1) a.
Proof.
  intros H; apply solve_lp_ok_inv in H; destruct H as (td & _ & Hs & <-).
  unfold lp_call in *; apply linprog_feasible in Hs.
  apply box_feasible in Hs; destruct Hs as [_ Hb]; exact Hb.
Qed.

(** X23. When the backend only reports feasible points, the weights the
    driver returns lie in [0, 1] component by component, whether it
    converged, ran out of iterations or ran none. *)
Theorem driver_returns_weights_in_unit_box :
  forall (data : list (list R)) (max_iter : nat) (print_progress : bool)
         (discount : R) (n_basis : nat) (g : rng) (res : outcome),
    lp_irl_sample_trajectories data max_iter print_progress discount
                               n_basis g = Ok res ->
    Forall (fun ai => 0 <= ai <= 1) (ret_alpha res).
Proof.
  intros data max_iter pp discount n_basis g res Hrun.
  destruct max_iter as [|m].
  - apply driver_ok_inv in Hrun; destruct Hrun as (vstar & _ & Hrun).
    cbn [for_loop] in Hrun; inversion Hrun; cbn.
    rewrite (proj1 (proj2 (initial_state_fields vstar n_basis g))).
    apply Forall_forall; intros y Hy; unfold np.zeros in Hy.
    apply repeat_spec in Hy; lra.
  - apply (solve_lp_in_box [] (ret_value_functions res)).
    eapply driver_result_solves_history; [|exact Hrun]; lia.
Qed.

End BackendFeasibleDriver.

Lemma loop_body_same_variables (pp pp' : bool) (discount : R) (n_basis : nat)
      (st1 st2 : loop_state) :
  same_variables st1 st2 ->
  match loop_body pp discount n_basis st1,
        loop_body pp' discount n_basis st2 with
  | Ok (Continue s1), Ok (Continue s2) => same_variables s1 s2
  | Ok (Return o1), Ok (Return o2) => same_result (Ok o1) (Ok o2)
  | Raise e1, Raise e2 => e1 = e2
  | _, _ => False
  end.
Proof.
  destruct st1 as [i1 a1 v1 p1 g1 o1], st2 as [i2 a2 v2 p2 g2 o2].
  unfold same_variables; cbn [iter alpha value_functions pi_current gen].
  intros (-> & -> & -> & -> & ->).
  unfold loop_body, candidate_alpha;
    cbn [iter alpha value_functions pi_current gen stdout].
  destruct (monte_carlo_sim p2 20 20 g2) as [[traj g']|e]; cbn [bind];
    [|reflexivity].
  destruct (calc_value_function_estimate traj discount n_basis) as [v|e];
    cbn [bind]; [|reflexivity].
  destruct (item_last ([v] ++ v2)) as [expert|e]; cbn [bind]; [|reflexivity].
  destruct (solve_lp_for_alphas expert ([v] ++ v2)) as [a|e]; cbn [bind];
    [|reflexivity].
  destruct (converged i2 a a2) as [[|]|e]; cbn [bind]; [| |reflexivity].
  - cbn; auto.
  - cbn; auto.
Qed.

Lemma for_loop_same_variables (pp pp' : bool) (discount : R) (n_basis : nat) :
  forall (remaining : nat) (st1 st2 : loop_state),
    same_variables st1 st2 ->
    same_result (for_loop pp discount n_basis remaining st1)
                (for_loop pp' discount n_basis remaining st2).
Proof.
  induction remaining as [|r IH]; intros st1 st2 Hsame.
  - destruct Hsame as (_ & Ha & Hv & _ & Hg); cbn; auto.
  - pose proof (loop_body_same_variables pp pp' discount n_basis st1 st2 Hsame)
      as Hb.
    cbn [for_loop].
    destruct (loop_body pp discount n_basis st1) as [[s1|o1]|e1];
      destruct (loop_body pp' discount n_basis st2) as [[s2|o2]|e2];
      cbn [bind]; try contradiction.
    + apply IH; exact Hb.
    + exact Hb.
    + exact Hb.
Qed.

(** X24. [print_progress] changes nothing but the printed text: with the
    flag on or off the driver returns the same weights and the same
    history and leaves the generator in the same state, or raises the
    same exception. *)
Theorem driver_result_independent_of_print_progress :
  forall (data : list (list R)) (max_iter : nat) (discount : R)
         (n_basis : nat) (g : rng),
    same_result
      (lp_irl_sample_trajectories data max_iter true discount n_basis g)
      (lp_irl_sample_trajectories data max_iter false discount n_basis g).
Proof.
  intros data max_iter discount n_basis g.
  unfold lp_irl_sample_trajectories.
  destruct (calc_value_function_estimate data discount n_basis) as [vstar|e];
    cbn [bind]; [|reflexivity].
  apply for_loop_same_variables; repeat split.
Qed.

Section BackendAnswers.

(** The backend succeeds on the programs the solver poses, with one
    weight per coefficient. *)
Hypothesis lp_call_answers :
  forall total_diff,
    success (lp_call total_diff) = true /\
    length (x (lp_call total_diff)) = length total_diff.

Lemma answering_candidate (discount : R) (n_basis : nat) (st : loop_state) :
  healthy n_basis st ->
  exists a v g',
    candidate_alpha discount n_basis st = Ok (a, v :: value_functions st, g') /\
    length a = n_basis /\
    length v = n_basis.
Proof.
  intros Hst.
  destruct (candidate_prefix_total discount n_basis st Hst)
    as (traj & g' & v & td & Hsim & Hcalc & Hv & Htd & Htdlen).
  destruct (lp_call_answers td) as [Hs Hx].
  exists (x (lp_call td)), v, g'.
  split; [|split; [congruence | exact Hv]].
  rewrite (candidate_alpha_eq _ _ _ _ _ _ v Hsim Hcalc).
  unfold solve_lp_for_alphas; rewrite Htd; cbn [bind].
  rewrite Hs; reflexivity.
Qed.

Lemma converged_total (i : nat) (a al : ndarray) :
  length a = length al -> (1 <= length a)%nat ->
  exists stop, converged i a al = Ok stop.
Proof.
  intros Hlen Hpos; unfold converged.
  destruct (Nat.leb 4 i); [|eauto].
  unfold np.subtract; rewrite binop_same_length by exact Hlen; cbn [bind].
  destruct a as [|u a]; [simpl in Hpos; lia|].
  destruct al as [|w al]; [discriminate|].
  cbn; eauto.
Qed.

Lemma answering_body (pp : bool) (discount : R) (n_basis : nat) (st : loop_state) :
  (1 <= n_basis)%nat ->
  healthy n_basis st ->
  length (alpha st) = n_basis ->
  exists c,
    loop_body pp discount n_basis st = Ok c /\
    forall st', c = Continue st' ->
                healthy n_basis st' /\ length (alpha st') = n_basis.
Proof.
  intros Hn Hst Hal.
  destruct (answering_candidate discount n_basis st Hst)
    as (a & v & g' & Hc & Ha & Hv).
  destruct (converged_total (iter st) a (alpha st)) as [stop Hs];
    [congruence | lia |].
  eexists; split; [exact (loop_body_eq pp _ _ _ _ _ _ _ Hc Hs)|].
  intros st' Hst'; destruct stop; [discriminate|].
  inversion Hst'; subst st'; cbn.
  split; [|exact Ha].
  destruct Hst as (_ & cands & expert & Hvf & Hall); split.
  - intros s; cbn; apply pi_updated_total; exact Ha.
  - exists (v :: cands), expert; cbn; rewrite Hvf.
    split; [reflexivity | constructor; assumption].
Qed.

Lemma answering_loop (pp : bool) (discount : R) (n_basis : nat) :
  (1 <= n_basis)%nat ->
  forall (remaining : nat) (st : loop_state),
    healthy n_basis st ->
    length (alpha st) = n_basis ->
    exists res, for_loop pp discount n_basis remaining st = Ok res.
Proof.
  intros Hn; induction remaining as [|r IH]; intros st Hst Hal.
  - eexists; reflexivity.
  - destruct (answering_body pp discount n_basis st Hn Hst Hal)
      as (c & Hb & Hnext).
    cbn [for_loop]; rewrite Hb; cbn [bind].
    destruct c as [st'|res]; [|eauto].
    destruct (Hnext st' eq_refl) as [Hst' Hal']; apply IH; assumption.
Qed.

Lemma driver_total (data : list (list R)) (max_iter : nat) (pp : bool)
      (discount : R) (n_basis T : nat) (g : rng) :
  Forall (fun traj => length traj = T) data ->
  (1 <= n_basis)%nat ->
  exists res,
    lp_irl_sample_trajectories data max_iter pp discount n_basis g = Ok res.
Proof.
  intros Hdata Hn.
  pose proof (calc_value_function_estimate_total data discount n_basis T Hdata)
    as Hcalc.
  pose proof (calc_value_function_estimate_length _ _ _ _ Hcalc) as Hlen.
  rewrite (driver_unfold _ _ _ _ _ _ _ Hcalc).
  apply answering_loop; [exact Hn | apply initial_state_healthy; exact Hlen |].
  rewrite (proj1 (proj2 (initial_state_fields _ n_basis g))).
  unfold np.zeros; apply repeat_length.
Qed.

(** X25. The driver raises nothing on well-shaped input: when the expert
    trajectories all have one length, there is at least one basis
    function, and the backend succeeds on the programs the solver poses
    with one weight per coefficient, a run of the driver returns weights
    and a history for every [max_iter], generator state and discount. *)
Theorem driver_returns_on_well_shaped_input :
  forall (data : list (list R)) (max_iter : nat) (print_progress : bool)
         (discount : R) (n_basis T : nat) (g : rng),
    Forall (fun traj => length traj = T) data ->
    (1 <= n_basis)%nat ->
    exists res,
      lp_irl_sample_trajectories data max_iter print_progress discount
                                 n_basis g = Ok res.
Proof.
  intros data max_iter pp discount n_basis T g Hdata Hn.
  eapply driver_total; eassumption.
Qed.

(** X26. The generator and the driver compose: with such a backend and
    at least one basis function, a batch returned by [monte_carlo_sim],
    for any policy and sizes, is expert data on which the driver returns,
    and the history it returns ends with the estimate of that batch. *)
Theorem driver_returns_on_simulated_data :
  forall (pol : policy) (n_trajectories trajectory_length : nat) (g : rng)
         (data : list (list R)) (g1 : rng) (max_iter : nat)
         (print_progress : bool) (discount : R) (n_basis : nat),
    (1 <= n_basis)%nat ->
    monte_carlo_sim pol n_trajectories trajectory_length g = Ok (data, g1) ->
    exists res value_pi_star,
      lp_irl_sample_trajectories data max_iter print_progress discount
                                 n_basis g1 = Ok res /\
      calc_value_function_estimate data discount n_basis = Ok value_pi_star /\
      item_last (ret_value_functions res) = Ok value_pi_star.
Proof.
  intros pol n len g data g1 max_iter pp discount n_basis Hn Hsim.
  apply simulate_trajectories_inv in Hsim.
  destruct Hsim as (trajs & -> & _ & _ & Hall); simpl.
  destruct (driver_total trajs max_iter pp discount n_basis _ g1 Hall Hn)
    as [res Hrun].
  pose proof (calc_value_function_estimate_total trajs discount n_basis _ Hall)
    as Hcalc.
  exists res; eexists; split; [exact Hrun|]; split; [exact Hcalc|].
  rewrite (driver_unfold _ _ _ _ _ _ _ Hcalc) in Hrun.
  destruct (initial_state_fields
              (map (fun m =>
                      if Nat.ltb 0 (length trajs)
                      then np.mean
                             (map (fun tr =>
                                     big_sum (fun t => discount ^ t *
                                                norm.pdf (nth t tr 0) m (2 / 22))
                                             (length tr))
                                  trajs)
                      else 0)
                   (np.linspace (-1) 1 n_basis)) n_basis g1)
    as (_ & _ & Hv0 & _).
  apply for_loop_inv in Hrun; destruct Hrun as (k & st & _ & Hit & Hcase).
  destruct (iterate_invariant _ _ _ _ _ _ Hit) as (_ & (cands & Hv & _) & _).
  rewrite Hv0 in Hv.
  destruct Hcase as [[_ ->]|[_ Hret]].
  - cbn; rewrite Hv; apply item_last_snoc.
  - apply loop_body_inv in Hret.
    destruct Hret as (a & vfs & g' & stop & Hc & _ & Hres).
    destruct stop; [|discriminate]; inversion Hres; subst res; cbn.
    apply candidate_alpha_inv in Hc; destruct Hc as (traj & v & _ & _ & -> & _).
    rewrite Hv.
    change (v :: cands ++ [?e]) with ((v :: cands) ++ [e]).
    apply item_last_snoc.
Qed.

End BackendAnswers.

End Program.

(** ** The reference instances meet the contracts *)

Lemma ideal_linprog_sound :
  forall c A_ub b_ub bounds,
    success (ideal_linprog c A_ub b_ub bounds) = true ->
    LP.optimal c A_ub b_ub bounds (x (ideal_linprog c A_ub b_ub bounds)).
Proof.
  intros c A_ub b_ub bounds; unfold ideal_linprog.
  destruct (excluded_middle_informative _) as [H|H]; simpl;
    [intros _ | discriminate].
  exact (proj2_sig (constructive_indefinite_description _ H)).
Qed.

Lemma ideal_linprog_complete :
  forall c A_ub b_ub bounds,
    (exists y, LP.optimal c A_ub b_ub bounds y) ->
    success (ideal_linprog c A_ub b_ub bounds) = true.
Proof.
  intros c A_ub b_ub bounds H; unfold ideal_linprog.
  destruct (excluded_middle_informative _) as [Hy|Hn];
    [reflexivity | contradiction].
Qed.

Lemma ideal_linprog_feasible :
  forall c A_ub b_ub bounds,
    success (ideal_linprog c A_ub b_ub bounds) = true ->
    LP.feasible c A_ub b_ub bounds (x (ideal_linprog c A_ub b_ub bounds)).
Proof.
  intros c A_ub b_ub bounds H; apply ideal_linprog_sound; exact H.
Qed.

Lemma counting_sample_unit : forall g, 0 <= fst (counting_sample g) < 1.
Proof.
  intros g; simpl; lra.
Qed.

Lemma pi_star_total : forall s, exists a, pi_star s = Ok a.
Proof.
  intros s; eexists; reflexivity.
Qed.

(** ** Runs of the driver with a backend that answers zero *)

Section ZeroBackend.

Variable rng : Type.
Variable random_sample : rng -> R * rng.
Variable choice : list R -> rng -> R * rng.
Variable print_progress : bool.
Variable discount : R.
Variable n_basis : nat.

Lemma zero_backend_candidate (st : loop_state rng) :
  healthy rng n_basis st ->
  exists v g',
    candidate_alpha rng random_sample zero_linprog discount n_basis st =
    Ok (np.zeros n_basis, v :: value_functions rng st, g') /\
    length v = n_basis.
Proof.
  intros Hst.
  destruct (candidate_prefix_total rng random_sample discount n_basis st Hst)
    as (traj & g' & v & td & Hsim & Hcalc & Hv & Htd & Htdlen).
  exists v, g'; split; [|exact Hv].
  rewrite (candidate_alpha_eq rng random_sample zero_linprog _ _ _ _ _ _ v Hsim Hcalc).
  unfold solve_lp_for_alphas; rewrite Htd; cbn [bind].
  unfold lp_call, zero_linprog; cbn [success x bind].
  unfold np.negative; rewrite length_map, Htdlen; reflexivity.
Qed.

Lemma zero_backend_step (st : loop_state rng) :
  healthy rng n_basis st ->
  (iter rng st < 4)%nat ->
  exists st',
    loop_body rng random_sample zero_linprog print_progress discount n_basis st =
      Ok (Continue rng st') /\
    healthy rng n_basis st' /\
    alpha rng st' = np.zeros n_basis /\
    iter rng st' = S (iter rng st).
Proof.
  intros Hst Hi.
  destruct (zero_backend_candidate st Hst) as (v & g' & Hc & Hv).
  pose proof (loop_body_eq rng random_sample zero_linprog print_progress
                _ _ _ _ _ _ false Hc
                (converged_before_five _ _ _ Hi)) as Hb.
  eexists; split; [exact Hb|].
  split; [|split; reflexivity].
  destruct Hst as (_ & cands & expert & Hvf & Hall).
  split.
  - intros s; cbn.
    apply pi_updated_total; unfold np.zeros; apply repeat_length.
  - exists (v :: cands), expert; cbn; rewrite Hvf.
    split; [reflexivity | constructor; assumption].
Qed.

Lemma zero_backend_run (k : nat) :
  forall st : loop_state rng,
    healthy rng n_basis st ->
    (iter rng st + k <= 4)%nat ->
    exists st',
      iterate rng random_sample zero_linprog print_progress discount n_basis k st =
        Some st' /\
      healthy rng n_basis st' /\
      iter rng st' = (iter rng st + k)%nat /\
      ((0 < k)%nat -> alpha rng st' = np.zeros n_basis).
Proof.
  induction k as [|k IH]; intros st Hst Hk.
  - exists st; split; [reflexivity|]; split; [exact Hst|]; split; lia.
  - destruct (zero_backend_step st Hst ltac:(lia)) as (st1 & Hb & Hh & Ha & Hi).
    destruct (IH st1 Hh ltac:(lia)) as (st' & Hit & Hh' & Hi' & Ha').
    exists st'; cbn [iterate]; rewrite Hb.
    split; [exact Hit|]; split; [exact Hh'|]; split; [lia|].
    intros _; destruct k as [|k]; [|apply Ha'; lia].
    cbn [iterate] in Hit; injection Hit as Hst'; rewrite <- Hst'; exact Ha.
Qed.

End ZeroBackend.

(** ** The theorems on concrete inputs *)

(** A policy with a deliberately extreme output saturates at 1. *)
Lemma step_clamps_into_interval_witness :
  exists s',
    step nat counting_sample 1 (fun _ => Ok 1000) 0%nat = Ok (s', 1%nat) /\
    -1 <= s' <= 1 /\
    s' = 1.
Proof.
  destruct (step_clamps_into_interval nat counting_sample 1 (fun _ => Ok 1000)
              1000 0%nat (-0.5 + (0.5 - -0.5) * (1 / 2)) 1%nat
              eq_refl eq_refl)
    as (s' & Hstep & Hrange & Hhi & _).
  exists s'; split; [exact Hstep|]; split; [exact Hrange|].
  apply Hhi; lra.
Defined.

(** With [trajectory_length = 0] every trajectory still holds its initial
    state, so its length is 1 and not 0. *)
Lemma monte_carlo_sim_zero_length_counterexample :
  exists trajectories g',
    monte_carlo_sim nat counting_sample pi_star 1 0 0%nat =
      Ok (trajectories, g') /\
    length trajectories = 1%nat /\
    ~ Forall (fun traj => length traj = 0%nat) trajectories.
Proof.
  eexists; eexists; split; [reflexivity|]; split; [reflexivity|].
  intros H; inversion H; discriminate.
Qed.

Lemma monte_carlo_sim_batch_witness :
  exists trajectories g',
    monte_carlo_sim nat counting_sample pi_star 2 3 0%nat =
      Ok (trajectories, g') /\
    length trajectories = 2%nat /\
    Forall (fun traj => length traj = 3%nat) trajectories /\
    Forall (fun traj => -1 <= hd 0 traj <= 1) trajectories.
Proof.
  destruct (monte_carlo_sim_batch nat counting_sample pi_star 2 3 0%nat
              pi_star_total counting_sample_unit)
    as (trajectories & g' & Hrun & Hn & Hlen & Hfirst & _).
  exists trajectories, g'; auto.
Defined.

Lemma value_estimate_is_average_discounted_sum_witness :
  exists values,
    calc_value_function_estimate [[0; 1]; [1; -1]] 0.9 3 = Ok values /\
    length values = 3%nat /\
    nth 0 values 0 =
      average (discounted_sum 0.9 3 0) [[0; 1]; [1; -1]].
Proof.
  destruct (value_estimate_is_average_discounted_sum
              [[0; 1]; [1; -1]] 0.9 3 2)
    as (values & Hcalc & Hlen & Hnth).
  - discriminate.
  - repeat constructor.
  - exists values; split; [exact Hcalc|]; split; [exact Hlen|].
    apply Hnth; repeat constructor.
Defined.

Lemma solve_lp_alpha_in_unit_box_witness :
  exists alpha_next,
    solve_lp_for_alphas ideal_linprog [3; 2; 1] [[1; 1; 1]; [3; 2; 1]] =
      Ok alpha_next /\
    Forall (fun ai => 0 <= ai <= 1) alpha_next.
Proof.
  assert (Hsolve :
            solve_lp_for_alphas ideal_linprog [3; 2; 1] [[1; 1; 1]; [3; 2; 1]] =
            Ok (x (lp_call ideal_linprog [0 + (3 - 1); 0 + (2 - 1); 0 + (1 - 1)]))).
  { apply solve_lp_ok_inv; eexists; split; [reflexivity|].
    split; [|reflexivity].
    apply ideal_linprog_complete, box_lp_has_optimum. }
  eexists; split; [exact Hsolve|].
  exact (solve_lp_alpha_in_unit_box ideal_linprog ideal_linprog_feasible
           _ _ _ Hsolve).
Defined.

Lemma solve_lp_returns_box_maximizer_witness :
  (exists alpha_next,
      solve_lp_for_alphas ideal_linprog [3; 2; 1] ([[1; 1; 1]] ++ [[3; 2; 1]]) =
        Ok alpha_next /\
      in_box 3 alpha_next /\
      forall beta,
        in_box 3 beta ->
        objective [[1; 1; 1]] [3; 2; 1] 3 beta <=
        objective [[1; 1; 1]] [3; 2; 1] 3 alpha_next) /\
  (exists alpha_next,
      solve_lp_for_alphas ideal_linprog [3; 2; 1] [[1; 1; 1]; [3; 2; 1]] =
        Ok alpha_next /\
      in_box 3 alpha_next /\
      nth 0 alpha_next 0 = 1 /\
      nth 1 alpha_next 0 = 1).
Proof.
  destruct (solve_lp_returns_box_maximizer ideal_linprog
              (fun c A_ub b_ub bounds _ => ideal_linprog_sound c A_ub b_ub bounds)
              (fun c A_ub b_ub bounds _ =>
                 ideal_linprog_complete c A_ub b_ub bounds))
    as [Hgeneral Hexample].
  split; [|exact (Hexample [3; 2; 1])].
  apply Hgeneral; [discriminate | repeat constructor | repeat constructor].
Defined.

(** With a backend that always answers zero the weights stop moving, and
    the driver, allowed 20 iterations, returns at the fifth with a history
    of six estimates. *)
Lemma driver_converges_from_fifth_iteration_witness :
  exists res,
    lp_irl_sample_trajectories nat counting_sample counting_choice zero_linprog
                               [] 20 true 0.9 1 0%nat = Ok res /\
    ret_alpha nat res = [0] /\
    length (ret_value_functions nat res) = 6%nat /\
    forall j, In (PrintConverged j) (ret_stdout nat res) -> (5 <= j)%nat.
Proof.
  pose proof (driver_converges_from_fifth_iteration nat counting_sample
                counting_choice zero_linprog [] 20 true 0.9 1 0%nat
                (np.zeros 1) eq_refl) as H.
  cbv zeta in H; destruct H as (_ & _ & Hprint & Hstop & _).
  pose proof (initial_state_healthy nat counting_choice (np.zeros 1) 1 0%nat
                eq_refl) as Hh0.
  destruct (zero_backend_run nat counting_sample true 0.9 1 4 _ Hh0)
    as (st & Hit & Hh & Hi & Ha).
  { rewrite (proj1 (initial_state_fields nat counting_choice (np.zeros 1) 1 0%nat)).
    apply le_n. }
  destruct (zero_backend_candidate nat counting_sample 0.9 1 st Hh)
    as (v & g' & Hc & _).
  destruct (Hstop 4%nat st _ _ _ (Rabs (0 - 0))
              (conj (le_n 4) (proj1 (Nat.leb_le 5 20) eq_refl)) Hit Hc)
    as (res & Hrun & Hra & Hrv & Hlen & _).
  - rewrite (Ha (Nat.lt_0_succ 3)); reflexivity.
  - rewrite Rminus_diag, Rabs_R0; lra.
  - exists res; split; [exact Hrun|]; split; [exact Hra|].
    split; [rewrite Hrv; exact Hlen|].
    intros j Hj; exact (Hprint res j Hrun Hj).
Defined.


(** With a backend that always fails the first iteration of the driver
    raises the solver's exception. *)
Lemma solve_lp_fails_when_backend_fails_witness :
  solve_lp_for_alphas failing_linprog [3; 2; 1] [[1; 1; 1]; [3; 2; 1]] =
    Raise (ValueError "LP did not find a feasible solution.") /\
  lp_irl_sample_trajectories nat counting_sample counting_choice failing_linprog
                             [] 20 true 0.9 3 0%nat =
    Raise (ValueError "LP did not find a feasible solution.").
Proof.
  destruct (solve_lp_fails_when_backend_fails nat counting_sample
              counting_choice failing_linprog) as (_ & Hfail & Hdriver).
  split.
  - exact (Hfail [3; 2; 1] [[1; 1; 1]; [3; 2; 1]] _ eq_refl eq_refl).
  - pose proof (initial_state_healthy nat counting_choice (np.zeros 3) 3 0%nat
                  eq_refl) as Hh0.
    destruct (candidate_prefix_total nat counting_sample 0.9 3 _ Hh0)
      as (traj & g' & v & td & Hsim & Hcalc & _ & Htd & _).
    exact (Hdriver [] 20%nat true 0.9 3%nat 0%nat (np.zeros 3) 0%nat _ traj g' v v _
             eq_refl (Nat.lt_0_succ 19) eq_refl Hsim Hcalc
             (Hfail v _ td Htd eq_refl)).
Defined.

(** ** The further properties on concrete inputs *)

Lemma counting_choice_in :
  forall (l : list R) (g : nat), l <> [] -> In (fst (counting_choice l g)) l.
Proof.
  intros [|a l] g H; [contradiction | left; reflexivity].
Qed.

Lemma zero_lp_call_answers :
  forall total_diff,
    success (lp_call zero_linprog total_diff) = true /\
    length (x (lp_call zero_linprog total_diff)) = length total_diff.
Proof.
  intros td; split; [reflexivity|].
  unfold lp_call, zero_linprog, np.zeros, np.negative; cbn [x].
  rewrite repeat_length, length_map; reflexivity.
Qed.

Lemma ideal_lp_call_answers :
  forall total_diff,
    success (lp_call ideal_linprog total_diff) = true /\
    length (x (lp_call ideal_linprog total_diff)) = length total_diff.
Proof.
  intros td.
  assert (Hs : success (lp_call ideal_linprog td) = true)
    by (unfold lp_call; apply ideal_linprog_complete, box_lp_has_optimum).
  split; [exact Hs|].
  unfold lp_call in *; apply ideal_linprog_sound in Hs.
  destruct Hs as [(Hlen & _) _]; rewrite Hlen.
  unfold np.negative; apply length_map.
Qed.

Lemma truncate_state_projection_witness :
  truncate_state (truncate_state (1 / 2)) = truncate_state (1 / 2) /\
  truncate_state (1 / 2) = 1 / 2 /\
  truncate_state (1 / 2) <= truncate_state 3.
Proof.
  destruct (truncate_state_projection (1 / 2) 3) as (Hidem & Hfix & Hmono).
  split; [exact Hidem|]; split; [apply Hfix | apply Hmono]; lra.
Defined.

Lemma monte_carlo_sim_states_in_interval_witness :
  exists trajectories g',
    monte_carlo_sim nat counting_sample pi_star 2 3 0%nat =
      Ok (trajectories, g') /\
    Forall (Forall (fun s => -1 <= s <= 1)) trajectories.
Proof.
  destruct (simulate_trajectories_total nat counting_sample pi_star 3
              pi_star_total 2 [] 0%nat) as (trajs & g' & Hrun & _).
  exists trajs, g'; split; [exact Hrun|].
  exact (monte_carlo_sim_states_in_interval nat counting_sample pi_star 2 3
           0%nat trajs g' counting_sample_unit Hrun).
Defined.

Lemma monte_carlo_sim_short_ignores_policy_witness :
  monte_carlo_sim nat counting_sample pi_star 2 1 0%nat =
  monte_carlo_sim nat counting_sample
                  (fun _ => Raise (ValueError "no action")) 2 1 0%nat.
Proof.
  exact (proj1 (monte_carlo_sim_short_ignores_policy nat counting_sample
                  pi_star (fun _ => Raise (ValueError "no action")) 2 1 0%nat
                  (le_n 1))).
Defined.

Lemma monte_carlo_sim_propagates_policy_exception_witness :
  monte_carlo_sim nat counting_sample
                  (fun _ => Raise (ValueError "no action")) 1 2 0%nat =
  Raise (ValueError "no action").
Proof.
  exact (monte_carlo_sim_propagates_policy_exception nat counting_sample
           (fun _ => Raise (ValueError "no action")) (ValueError "no action")
           1 2 0%nat (fun _ => eq_refl) (le_n 1) (le_n 2)).
Defined.

Lemma step_under_pi_star_witness :
  truncate_state
    (- Rabs (1 / 2) + fst (noise nat counting_sample 0%nat)) < 0.5.
Proof.
  exact (proj2 (proj2 (step_under_pi_star nat counting_sample (1 / 2) 0%nat
                         counting_sample_unit))).
Defined.

Lemma construct_random_policy_threshold_witness :
  exists a,
    fst (construct_random_policy nat counting_choice 0%nat) (1 / 2) = Ok a /\
    (a = -1 \/ a = 1).
Proof.
  destruct (construct_random_policy_threshold nat counting_choice 0%nat
              counting_choice_in) as (shape & inflection & i & _ & _ & _ & H).
  exact (proj2 (H (1 / 2))).
Defined.

Lemma reward_function_weighted_sum_witness :
  exists r, reward_function 0 [1; 0; 1] 3 = Ok r /\ 0 <= r.
Proof.
  destruct (reward_function_weighted_sum 0 [1; 0; 1] 3 eq_refl)
    as (r & Hr & _ & Hpos).
  exists r; split; [exact Hr|].
  apply Hpos; repeat (constructor; try lra).
Defined.

Lemma reward_function_raises_iff_witness :
  exists e, reward_function 0 [1; 2] 3 = Raise e.
Proof.
  apply (proj1 (reward_function_raises_iff 0 [1; 2] 3)).
  repeat split; discriminate.
Defined.

Lemma reward_function_linear_witness :
  exists ra rb,
    reward_function 0 [1; 0; 1] 3 = Ok ra /\
    reward_function 0 [0; 1; 0] 3 = Ok rb /\
    reward_function 0 (np.zip_with Rplus [1; 0; 1] [0; 1; 0]) 3 = Ok (ra + rb).
Proof.
  destruct (reward_function_linear 0 2 [1; 0; 1] [0; 1; 0] 3 eq_refl eq_refl)
    as (ra & rb & Ha & Hb & Hsum & _).
  exists ra, rb; auto.
Defined.

Lemma pi_updated_actions_witness :
  exists action,
    pi_updated [1; 0; 1] 3 0 = Ok action /\ (action = 1 \/ action = -1).
Proof.
  exact (proj1 (pi_updated_actions 0 [1; 0; 1] 3 eq_refl)).
Defined.

Lemma value_estimate_single_state_head_ignores_discount_witness :
  exists values,
    calc_value_function_estimate [[0]; [1; -1; 0]] 0.9 3 = Ok values /\
    nth 0 values 0 =
      average (fun traj =>
                 big_sum (fun t => phi 3 0 (nth t traj 0)) (length traj))
              [[0]; [1; -1; 0]].
Proof.
  destruct (value_estimate_single_state_head_ignores_discount
              0 [[1; -1; 0]] 0.9 3) as (values & Hcalc & _ & Hnth).
  exists values; split; [exact Hcalc|].
  apply Hnth; repeat constructor.
Defined.

Lemma value_estimate_ragged_batch_raises_witness :
  calc_value_function_estimate [[0; 1]; [0; 1; -1]] 0.9 3 =
  Raise (ValueError "operands could not be broadcast together").
Proof.
  apply (value_estimate_ragged_batch_raises [0; 1] [[0; 1; -1]] [0; 1; -1]);
    [left; reflexivity | discriminate | discriminate | discriminate
     | repeat constructor].
Defined.

Lemma value_estimate_nonneg_witness :
  exists values,
    calc_value_function_estimate [[0; 1]; [1; -1]] 0.9 3 = Ok values /\
    Forall (fun v => 0 <= v) values.
Proof.
  pose proof (calc_value_function_estimate_total [[0; 1]; [1; -1]] 0.9 3 2
                ltac:(repeat constructor)) as Hcalc.
  eexists; split; [exact Hcalc|].
  apply (value_estimate_nonneg [[0; 1]; [1; -1]] 0.9 3 _ ltac:(lra) Hcalc).
Defined.

Lemma value_estimate_order_independent_witness :
  calc_value_function_estimate [[0; 1]; [1; -1]] 0.9 3 =
  calc_value_function_estimate [[1; -1]; [0; 1]] 0.9 3.
Proof.
  apply (value_estimate_order_independent _ _ 0.9 3 2);
    [apply perm_swap | repeat constructor].
Defined.

Lemma value_estimate_of_simulated_batch_witness :
  exists trajectories g' values,
    monte_carlo_sim nat counting_sample pi_star 2 3 0%nat =
      Ok (trajectories, g') /\
    calc_value_function_estimate trajectories 0.9 3 = Ok values /\
    length values = 3%nat.
Proof.
  destruct (simulate_trajectories_total nat counting_sample pi_star 3
              pi_star_total 2 [] 0%nat) as (trajs & g' & Hrun & _).
  destruct (value_estimate_of_simulated_batch nat counting_sample pi_star 2 3
              0%nat trajs g' 0.9 3 Hrun) as (values & Hcalc & Hlen).
  exists trajs, g', values; auto.
Defined.

Lemma solve_lp_ragged_history_raises_witness :
  solve_lp_for_alphas ideal_linprog [] [[1; 2]; [3; 2; 1]] =
  Raise (ValueError "operands could not be broadcast together").
Proof.
  apply (solve_lp_ragged_history_raises ideal_linprog [] [1; 2] [] [3; 2; 1]);
    discriminate.
Defined.

Lemma solve_lp_candidate_order_independent_witness :
  solve_lp_for_alphas ideal_linprog [] [[1; 1; 1]; [0; 2; 0]; [3; 2; 1]] =
  solve_lp_for_alphas ideal_linprog [] [[0; 2; 0]; [1; 1; 1]; [3; 2; 1]].
Proof.
  apply (proj2 (solve_lp_candidate_order_independent ideal_linprog [] []
                  [[1; 1; 1]; [0; 2; 0]] [[0; 2; 0]; [1; 1; 1]] [3; 2; 1] 3
                  (perm_swap _ _ _) ltac:(repeat constructor))).
Defined.

Lemma solve_lp_weights_saturate_witness :
  exists alpha_next,
    solve_lp_for_alphas ideal_linprog [] [[1; 1; 1]; [3; 2; 1]] = Ok alpha_next /\
    nth 0 alpha_next 0 = 1.
Proof.
  destruct (solve_lp_weights_saturate ideal_linprog
              (fun c A_ub b_ub bounds _ => ideal_linprog_sound c A_ub b_ub bounds)
              (fun c A_ub b_ub bounds _ =>
                 ideal_linprog_complete c A_ub b_ub bounds)
              [] [[1; 1; 1]] [3; 2; 1] 3
              ltac:(repeat constructor) ltac:(repeat constructor))
    as (a & Hsolve & Hone & _).
  exists a; split; [exact Hsolve|].
  apply Hone; [repeat constructor | unfold margin; cbn; lra].
Defined.

Lemma driver_short_run_exhausts_witness :
  exists res,
    lp_irl_sample_trajectories nat counting_sample counting_choice zero_linprog
                               [[0; 1]; [1; 0]] 3 true 0.9 3 0%nat = Ok res /\
    length (ret_value_functions nat res) = 4%nat.
Proof.
  destruct (driver_total nat counting_sample counting_choice zero_linprog
              zero_lp_call_answers [[0; 1]; [1; 0]] 3 true 0.9 3 2 0%nat
              ltac:(repeat constructor) ltac:(repeat constructor))
    as [res Hrun].
  exists res; split; [exact Hrun|].
  exact (proj1 (driver_short_run_exhausts nat counting_sample counting_choice
                  zero_linprog _ 3 true 0.9 3 0%nat res
                  ltac:(repeat constructor) Hrun)).
Defined.

Lemma driver_silent_without_progress_witness :
  exists res,
    lp_irl_sample_trajectories nat counting_sample counting_choice zero_linprog
                               [[0; 1]; [1; 0]] 20 false 0.9 3 0%nat = Ok res /\
    ret_stdout nat res = [].
Proof.
  destruct (driver_total nat counting_sample counting_choice zero_linprog
              zero_lp_call_answers [[0; 1]; [1; 0]] 20 false 0.9 3 2 0%nat
              ltac:(repeat constructor) ltac:(repeat constructor))
    as [res Hrun].
  exists res; split; [exact Hrun|].
  exact (driver_silent_without_progress nat counting_sample counting_choice
           zero_linprog _ 20 0.9 3 0%nat res Hrun).
Defined.

Lemma driver_returns_solution_of_returned_history_witness :
  exists res,
    lp_irl_sample_trajectories nat counting_sample counting_choice ideal_linprog
                               [[0; 1]; [1; 0]] 20 true 0.9 3 0%nat = Ok res /\
    solve_lp_for_alphas ideal_linprog [] (ret_value_functions nat res) =
      Ok (ret_alpha nat res).
Proof.
  destruct (driver_total nat counting_sample counting_choice ideal_linprog
              ideal_lp_call_answers [[0; 1]; [1; 0]] 20 true 0.9 3 2 0%nat
              ltac:(repeat constructor) ltac:(repeat constructor))
    as [res Hrun].
  exists res; split; [exact Hrun|].
  exact (driver_returns_solution_of_returned_history nat counting_sample
           counting_choice ideal_linprog _ 20 true 0.9 3 0%nat res []
           ltac:(repeat constructor) Hrun).
Defined.

Lemma driver_returns_weights_in_unit_box_witness :
  exists res,
    lp_irl_sample_trajectories nat counting_sample counting_choice ideal_linprog
                               [[0; 1]; [1; 0]] 20 true 0.9 3 0%nat = Ok res /\
    Forall (fun ai => 0 <= ai <= 1) (ret_alpha nat res).
Proof.
  destruct (driver_total nat counting_sample counting_choice ideal_linprog
              ideal_lp_call_answers [[0; 1]; [1; 0]] 20 true 0.9 3 2 0%nat
              ltac:(repeat constructor) ltac:(repeat constructor))
    as [res Hrun].
  exists res; split; [exact Hrun|].
  exact (driver_returns_weights_in_unit_box nat counting_sample counting_choice
           ideal_linprog ideal_linprog_feasible _ 20 true 0.9 3 0%nat res Hrun).
Defined.

Lemma driver_returns_on_well_shaped_input_witness :
  exists res,
    lp_irl_sample_trajectories nat counting_sample counting_choice ideal_linprog
                               [[0; 1]; [1; 0]] 20 true 0.9 21 0%nat = Ok res.
Proof.
  apply (driver_returns_on_well_shaped_input nat counting_sample
           counting_choice ideal_linprog ideal_lp_call_answers
           [[0; 1]; [1; 0]] 20 true 0.9 21 2 0%nat);
    [repeat constructor | apply (proj1 (Nat.leb_le 1 21)); reflexivity].
Defined.

Lemma driver_returns_on_simulated_data_witness :
  exists data g1 res,
    monte_carlo_sim nat counting_sample pi_star 20 100 0%nat = Ok (data, g1) /\
    lp_irl_sample_trajectories nat counting_sample counting_choice ideal_linprog
                               data 20 false 0.9 21 g1 = Ok res.
Proof.
  destruct (simulate_trajectories_total nat counting_sample pi_star 100
              pi_star_total 20 [] 0%nat) as (data & g1 & Hsim & _).
  destruct (driver_returns_on_simulated_data nat counting_sample
              counting_choice ideal_linprog ideal_lp_call_answers
              pi_star 20 100 0%nat data g1 20 false 0.9 21
              (proj1 (Nat.leb_le 1 21) eq_refl) Hsim)
    as (res & vstar & Hrun & _).
  exists data, g1, res; auto.
Defined.
